(** * oss-url-converter: URL extraction, conversion workers and the task runner

    A shallow embedding of [src/oss_client.py] (class [OSSClient]) and of the
    conversion endpoints of [src/app.py], followed by the properties of the
    specification proved (or refuted) against it.

    Python values are modelled as follows.
    - A [str] is the list of its Unicode code points ([list N]); [lit] reads a
      UTF-8 literal of this file into that form.
    - The dictionaries with a fixed set of keys (a task, a URL entry, a worker
      result) are records; a key that may be absent is an [option] field.
    - The module-level [tasks] dictionary is a [gmap] from task id to task.
    - An exception raised by a statement is an explicit [Raise] result that
      carries the store as the statement left it.
    - The collaborators the code only calls (HTTP client, S3 client, temporary
      files, [urllib.parse], [uuid]) are the fields of a [Collaborators]
      record; every call to the network is appended to a call log. *)

From Stdlib Require Import NArith String Ascii.
From stdpp Require Import gmap list sets.

#[local] Set Warnings "-clear-no-such-hyp".

Local Open Scope N_scope.

(** ** Python strings *)

Abbreviation char := N.
Abbreviation str := (list N).

(** UTF-8 decoding of the bytes of a literal: [pending] holds the bits read so
    far of a multi-byte sequence and [need] the continuation bytes missing. *)
Fixpoint utf8_decode (pending : N) (need : nat) (bs : list N) : str :=
  match bs with
  | [] => []
  | b :: bs' =>
      match need with
      | S k =>
          let acc := pending * 64 + b mod 64 in
          match k with
          | O => acc :: utf8_decode 0 O bs'
          | S _ => utf8_decode acc k bs'
          end
      | O =>
          if b <? 128 then b :: utf8_decode 0 O bs'
          else if b <? 224 then utf8_decode (b mod 32) 1 bs'
          else if b <? 240 then utf8_decode (b mod 16) 2 bs'
          else utf8_decode (b mod 8) 3 bs'
      end
  end.

Definition lit (s : string) : str :=
  utf8_decode 0 O (N_of_ascii <$> list_ascii_of_string s).

(** [c.isspace()], which is also what [\s] matches in a [str] pattern. *)
Definition is_space (c : char) : bool :=
  ((9 <=? c) && (c <=? 13)) || ((28 <=? c) && (c <=? 32))
  || (c =? 133) || (c =? 160) || (c =? 5760)
  || ((8192 <=? c) && (c <=? 8202))
  || (c =? 8232) || (c =? 8233) || (c =? 8239) || (c =? 8287) || (c =? 12288).

(** [s.startswith(p)], returning the remainder of [s] after [p]. *)
Fixpoint strip_prefix (p s : str) : option str :=
  match p, s with
  | [], _ => Some s
  | _ :: _, [] => None
  | a :: p', b :: s' => if a =? b then strip_prefix p' s' else None
  end.

Definition startswith (p s : str) : bool :=
  match strip_prefix p s with Some _ => true | None => false end.

(** [sub in s]. *)
Fixpoint contains (sub s : str) : bool :=
  startswith sub s ||
  match s with
  | [] => false
  | _ :: s' => contains sub s'
  end.

(** The longest prefix of [s] whose characters satisfy [p], and the rest. *)
Fixpoint span (p : char -> bool) (s : str) : str * str :=
  match s with
  | [] => ([], [])
  | c :: s' =>
      if p c then let '(run, rest) := span p s' in (c :: run, rest)
      else ([], s)
  end.

(** [s.strip()]: whitespace removed at both ends. *)
Definition lstrip (s : str) : str := (span is_space s).2.
Definition strip (s : str) : str := reverse (lstrip (reverse (lstrip s))).

(** [s.strip(chars)]. *)
Definition strip_chars (chars : str) (s : str) : str :=
  let drop_set s := (span (fun c => bool_decide (c ∈ chars)) s).2 in
  reverse (drop_set (reverse (drop_set s))).

(** [s.replace(old, new)]: the occurrences of [old] are taken from the left
    and do not overlap; [skip] counts the characters of an occurrence that
    are still to be passed over. With an empty [old], [new] is inserted
    before every character and at the end. *)
Fixpoint replace_from (old new : str) (skip : nat) (s : str) : str :=
  match s with
  | [] => []
  | c :: s' =>
      match skip with
      | S k => replace_from old new k s'
      | O =>
          if startswith old s
          then new ++ replace_from old new (length old - 1) s'
          else c :: replace_from old new O s'
      end
  end.

Definition replace (old new s : str) : str :=
  match old with
  | [] => new ++ concat ((fun c => c :: new) <$> s)
  | _ :: _ => replace_from old new O s
  end.

(** [sep.join(parts)] *)
Fixpoint join (sep : str) (parts : list str) : str :=
  match parts with
  | [] => []
  | [p] => p
  | p :: ps => p ++ sep ++ join sep ps
  end.

(** [s.split(sep)[-1]] for a non-empty [sep]: what follows the last
    occurrence of [sep], or all of [s] when there is none. The occurrences
    are those [split] finds, from the left and without overlap. *)
Fixpoint split_last_from (sep : str) (skip : nat) (cur : str) (s : str) : str :=
  match s with
  | [] => cur
  | c :: s' =>
      match skip with
      | S k => split_last_from sep k cur s'
      | O =>
          if startswith sep s
          then split_last_from sep (length sep - 1) [] s'
          else split_last_from sep O (cur ++ [c]) s'
      end
  end.

Definition split_last (sep s : str) : str := split_last_from sep O [] s.

(** [s.split(sep)[0]] for a non-empty [sep]. *)
Fixpoint split_first (sep s : str) : str :=
  match s with
  | [] => []
  | c :: s' => if startswith sep s then [] else c :: split_first sep s'
  end.

(** ** [os.path] (POSIX flavour) *)

Definition SLASH : char := 47.
Definition DOT : char := 46.

(** [os.path.basename(p)]: what follows the last [/]. *)
Definition basename (p : str) : str := split_last [SLASH] p.

(** [os.path.splitext(p)]: the extension starts at the last dot of the last
    path component, unless that component has only leading dots before it. *)
Fixpoint rfind_from (c : char) (i : nat) (s : str) : option nat :=
  match s with
  | [] => None
  | d :: s' =>
      match rfind_from c (S i) s' with
      | Some j => Some j
      | None => if d =? c then Some i else None
      end
  end.

Definition rfind (c : char) (s : str) : option nat := rfind_from c O s.

Definition splitext (p : str) : str * str :=
  let filenameIndex := match rfind SLASH p with Some i => S i | None => O end in
  match rfind DOT p with
  | Some dotIndex =>
      if bool_decide (filenameIndex ≤ dotIndex)%nat
         && negb (forallb (fun c => c =? DOT)
                    (take (dotIndex - filenameIndex) (drop filenameIndex p)))
      then (take dotIndex p, drop dotIndex p)
      else (p, [])
  | None => (p, [])
  end.

(** ** [urllib.parse]

    The two functions of [urllib.parse] the client calls, as CPython 3.11
    defines them; the examples run the client against them. *)

(** The value of a hexadecimal digit, in either case. *)
Definition hex_value (c : char) : option N :=
  if (48 <=? c) && (c <=? 57) then Some (c - 48)
  else if (97 <=? c) && (c <=? 102) then Some (c - 87)
  else if (65 <=? c) && (c <=? 70) then Some (c - 55)
  else None.

(** [unquote_to_bytes] on ASCII text: a percent sign followed by two
    hexadecimal digits becomes the byte they write, any other character is
    its own byte. [skip] counts the digits of an escape still to pass. *)
Fixpoint unquote_to_bytes_from (skip : nat) (s : str) : list N :=
  match s with
  | [] => []
  | c :: s' =>
      match skip with
      | S k => unquote_to_bytes_from k s'
      | O =>
          let escape :=
            if c =? 37 then
              match s' with
              | a :: b :: _ =>
                  match hex_value a, hex_value b with
                  | Some x, Some y => Some (16 * x + y)
                  | _, _ => None
                  end
              | _ => None
              end
            else None in
          match escape with
          | Some byte => byte :: unquote_to_bytes_from 2 s'
          | None => c :: unquote_to_bytes_from O s'
          end
      end
  end.

Definition unquote_to_bytes (s : str) : list N := unquote_to_bytes_from O s.

Definition REPLACEMENT : char := 65533.

Definition continuation (b : N) : bool := (128 <=? b) && (b <? 192).

(** The first character of [b :: rest] read as UTF-8 with
    [errors='replace'], and the number of bytes it takes: an ill-formed or
    truncated sequence gives one replacement character for the bytes of it
    that are well formed so far (one byte at least). *)
Definition decode_one (b : N) (rest : list N) : char * nat :=
  if b <? 128 then (b, 1%nat)
  else if b <? 194 then (REPLACEMENT, 1%nat)
  else if b <? 224 then
    match rest with
    | c1 :: _ =>
        if continuation c1 then ((b - 192) * 64 + (c1 - 128), 2%nat)
        else (REPLACEMENT, 1%nat)
    | [] => (REPLACEMENT, 1%nat)
    end
  else if b <? 240 then
    match rest with
    | c1 :: rest1 =>
        if continuation c1 && implb (b =? 224) (160 <=? c1)
           && implb (b =? 237) (c1 <? 160)
        then
          match rest1 with
          | c2 :: _ =>
              if continuation c2
              then (((b - 224) * 64 + (c1 - 128)) * 64 + (c2 - 128), 3%nat)
              else (REPLACEMENT, 2%nat)
          | [] => (REPLACEMENT, 2%nat)
          end
        else (REPLACEMENT, 1%nat)
    | [] => (REPLACEMENT, 1%nat)
    end
  else if b <? 245 then
    match rest with
    | c1 :: rest1 =>
        if continuation c1 && implb (b =? 240) (144 <=? c1)
           && implb (b =? 244) (c1 <? 144)
        then
          match rest1 with
          | c2 :: rest2 =>
              if continuation c2 then
                match rest2 with
                | c3 :: _ =>
                    if continuation c3
                    then ((((b - 240) * 64 + (c1 - 128)) * 64 + (c2 - 128))
                            * 64 + (c3 - 128), 4%nat)
                    else (REPLACEMENT, 3%nat)
                | [] => (REPLACEMENT, 3%nat)
                end
              else (REPLACEMENT, 2%nat)
          | [] => (REPLACEMENT, 2%nat)
          end
        else (REPLACEMENT, 1%nat)
    | [] => (REPLACEMENT, 1%nat)
    end
  else (REPLACEMENT, 1%nat).

(** [bs.decode('utf-8', 'replace')] *)
Fixpoint decode_utf8_from (skip : nat) (bs : list N) : str :=
  match bs with
  | [] => []
  | b :: rest =>
      match skip with
      | S k => decode_utf8_from k rest
      | O =>
          let '(c, used) := decode_one b rest in
          c :: decode_utf8_from (used - 1) rest
      end
  end.

Definition decode_utf8 (bs : list N) : str := decode_utf8_from O bs.

(** [urllib.parse.unquote(s)]: every maximal run of ASCII characters is
    unquoted to bytes and decoded; the other characters stay. [run] is the
    ASCII run being read. *)
Fixpoint unquote_runs (run : list N) (s : str) : str :=
  match s with
  | [] => decode_utf8 (unquote_to_bytes run)
  | c :: s' =>
      if c <? 128 then unquote_runs (run ++ [c]) s'
      else decode_utf8 (unquote_to_bytes run) ++ c :: unquote_runs [] s'
  end.

Definition urllib_unquote (s : str) : str := unquote_runs [] s.

(** The index of the first character of [s] that satisfies [p]. *)
Fixpoint find_index (p : char -> bool) (s : str) : option nat :=
  match s with
  | [] => None
  | c :: s' => if p c then Some O else S <$> find_index p s'
  end.

Definition cut_at (p : N -> bool) (s : str) : str :=
  match find_index p s with Some i => take i s | None => s end.

(** [urlparse(url).path] for a URL that starts with [http://] or
    [https://]: what follows the scheme and the two slashes up to the first
    [/], [?] or [#] is the host part; of the rest, the path is what comes
    before the first [#], before the first [?], and before the first [;] of
    its last segment. ([urlparse] raises instead for some host parts that
    are not ASCII or hold a square bracket.) *)
Definition http_urlparse_path (url : str) : str :=
  let after_colon :=
    match find_index (N.eqb 58) url with
    | Some i => drop (S i) url
    | None => url
    end in
  let after_netloc :=
    match after_colon with
    | 47 :: 47 :: rest =>
        match find_index (λ c, (c =? 47) || (c =? 63) || (c =? 35)) rest with
        | Some i => drop i rest
        | None => []
        end
    | _ => after_colon
    end in
  let path_and_params := cut_at (N.eqb 63) (cut_at (N.eqb 35) after_netloc) in
  let last_segment :=
    match rfind SLASH path_and_params with
    | Some i => i
    | None => O
    end in
  take last_segment path_and_params
  ++ cut_at (N.eqb 59) (drop last_segment path_and_params).

(** ** The filename parameter of a header, as the specification reads it *)



(** ** Exceptions, collaborators and the call log *)

Inductive exn_class :=
  | RequestException | NoCredentialsError | AttributeError | TypeError
  | OtherException.

(** An exception instance: its class and [str(e)]. *)
Record exn := Exn { exn_cls : exn_class; exn_str : str }.

#[global] Instance exn_class_eq_dec : EqDecision exn_class.
Proof. solve_decision. Defined.

(** The result of a statement that may raise. *)
Inductive outcome (A : Type) :=
  | Return (a : A)
  | Raise (e : exn).
Arguments Return {A} a.
Arguments Raise {A} e.

(** What [requests.get] hands back: [raise_for_status] raises an [HTTPError]
    (a [RequestException]) or passes, and [iter_content] yields the body or
    raises while streaming it. *)
Record response := Response {
  raise_for_status : option exn;
  headers : str -> option str;
  iter_content : outcome str;
}.

(** The configuration of an [OSSClient] and what it calls without defining
    it. [requests_get url] is [requests.get(url, stream=True, timeout=30)];
    [urlparse_path url] is [urlparse(url).path]; [NamedTemporaryFile suffix]
    is the name of the temporary file created with that suffix, which is
    taken to be created and written without error; [s3_upload bucket key] is
    [upload_file] or [upload_fileobj] of the S3 client, [None] when it
    returns; [uuid4_hex n] is the [hex] of the [n]-th UUID drawn. *)
Record Collaborators := {
  endpoint : str;
  bucket_name : str;
  url_expires : N;
  requests_get : str -> outcome response;
  urlparse_path : str -> str;
  unquote : str -> str;
  NamedTemporaryFile : str -> str;
  path_exists : str -> bool;
  s3_upload : str -> str -> option exn;
  generate_presigned_url : str -> str -> N -> outcome str;
  uuid4_hex : nat -> str;
}.

Inductive call :=
  | Fetch (url : str)
  | Upload (bucket key : str)
  | Presign (bucket key : str).

(** The part of the world a worker changes: the calls made so far, oldest
    first, and the number of UUIDs drawn. *)
Record world := World { calls : list call; uuids_drawn : nat }.

Definition M (A : Type) : Type := world -> A * world.

#[global] Instance M_ret : MRet M := fun A a w => (a, w).
#[global] Instance M_bind : MBind M :=
  fun A B f m w => let '(a, w') := m w in f a w'.

Definition log (c : call) : M unit :=
  fun w => (tt, {| calls := calls w ++ [c]; uuids_drawn := uuids_drawn w |}).

Module OSSClient.

(** The negated character class of [url_pattern]: any character but
    whitespace, the angle brackets, the double and the single quote, the
    closing parenthesis and the closing square bracket. *)
Definition url_char (c : char) : bool :=
  negb (is_space c || bool_decide (c ∈ [60; 62; 34; 39; 41; 93])).

(** The text consumed by the trailing group of [url_pattern], a dot and one
    or more class characters, repeated: as long as a dot followed by at least
    one class character comes next, take them. *)
Fixpoint dot_groups (fuel : nat) (s : str) : str :=
  match fuel, s with
  | S k, c :: s' =>
      if c =? DOT then
        let '(run, rest) := span url_char s' in
        match run with
        | [] => []
        | _ :: _ => c :: run ++ dot_groups k rest
        end
      else []
  | _, _ => []
  end.

(** What follows [http] or [https] in a match: [://], then the greedy run
    of class characters (one at least), then the trailing group. *)
Definition match_after_scheme (s : str) : option str :=
  match strip_prefix (lit "://") s with
  | Some body =>
      let '(run, rest) := span url_char body in
      match run with
      | [] => None
      | _ :: _ => Some (lit "://" ++ run ++ dot_groups (length rest) rest)
      end
  | None => None
  end.

(** A match of [url_pattern] at the start of [s]. The optional [s] of
    [https?] is tried first and given back when the rest then fails. *)
Definition match_url (s : str) : option str :=
  match strip_prefix (lit "http") s with
  | Some r =>
      let without_s := (lit "http" ++.) <$> match_after_scheme r in
      match r with
      | c :: r' =>
          if c =? 115 then
            match match_after_scheme r' with
            | Some m => Some (lit "https" ++ m)
            | None => without_s
            end
          else without_s
      | [] => without_s
      end
  | None => None
  end.

(** [re.findall(url_pattern, text)]: the matches from left to right, the
    search resuming where the previous match ended. [skip] counts the
    characters of the current match that are still to be passed over. *)
Fixpoint findall_from (skip : nat) (s : str) : list str :=
  match s with
  | [] => []
  | _ :: s' =>
      match skip with
      | S k => findall_from k s'
      | O =>
          match match_url s with
          | Some m => m :: findall_from (length m - 1) s'
          | None => findall_from O s'
          end
      end
  end.

Definition findall (text : str) : list str := findall_from O text.

(** One turn of the loop [for url in urls] over the pair
    [(seen, unique_urls)]. *)
Definition extract_step (acc : gset str * list str) (url : str)
  : gset str * list str :=
  let '(seen, unique_urls) := acc in
  if decide (url ∈ seen) then acc
  else ({[url]} ∪ seen, unique_urls ++ [url]).

Definition extract_urls (text : str) : list str :=
  (foldl extract_step (∅, []) (findall text)).2.

(** The dictionary returned by the upload methods and by
    [download_and_upload]: [success] is [True] with [url] and [object_key],
    or [False] with [error] (and [original_url] where the code adds it; the
    [error] key is always set, so the default of [result.get] in
    [process_single_url] is never used). *)
Inductive upload_result :=
  | Uploaded (url object_key : str)
  | Failure (error : str) (original_url : option str).

(** The dictionary a worker returns for one URL. *)
Record result := Result {
  original : str;
  converted : str;
  status : str;
  message : option str;
  error : option str;
}.

Section Client.
Context (self : Collaborators).

(** [uuid.uuid4().hex[:8]] *)
Definition uuid4_hex8 : M str :=
  fun w => (take 8 (uuid4_hex self (uuids_drawn w)),
            {| calls := calls w; uuids_drawn := S (uuids_drawn w) |}).

(** [f"{name}_{uuid.uuid4().hex[:8]}{ext}"] with
    [name, ext = os.path.splitext(filename)]. *)
Definition unique_key (filename : str) (hex8 : str) : str :=
  let '(name, ext) := splitext filename in
  name ++ lit "_" ++ hex8 ++ ext.

(** The [try] block shared by [upload_file] and [upload_from_stream]. *)
Definition put_object (object_key : str) : M upload_result :=
  _ ← log (Upload (bucket_name self) object_key);
  match s3_upload self (bucket_name self) object_key with
  | Some e =>
      mret (if decide (exn_cls e = NoCredentialsError)
            then Failure (lit "密钥认证失败") None
            else Failure (exn_str e) None)
  | None =>
      _ ← log (Presign (bucket_name self) object_key);
      match generate_presigned_url self (bucket_name self) object_key
              (url_expires self) with
      | Return url => mret (Uploaded url object_key)
      | Raise e =>
          mret (if decide (exn_cls e = NoCredentialsError)
                then Failure (lit "密钥认证失败") None
                else Failure (exn_str e) None)
      end
  end.

Definition upload_file (file_path : str) (object_key : option str)
  : M upload_result :=
  if negb (path_exists self file_path)
  then mret (Failure (lit "文件不存在") None)
  else
    key ← match object_key with
          | Some k => mret k
          | None =>
              let original_name := basename file_path in
              hex8 ← uuid4_hex8; mret (unique_key original_name hex8)
          end;
    put_object key.

Definition upload_from_stream (file_stream : str) (filename : str)
  : M upload_result :=
  hex8 ← uuid4_hex8;
  put_object (unique_key filename hex8).

Definition ext_map : gmap str str :=
  list_to_map
    [ (lit "image/jpeg", lit ".jpg");
      (lit "image/png", lit ".png");
      (lit "image/gif", lit ".gif");
      (lit "image/webp", lit ".webp");
      (lit "application/pdf", lit ".pdf");
      (lit "text/plain", lit ".txt");
      (lit "text/html", lit ".html");
      (lit "application/json", lit ".json") ].

Definition _extract_filename (url : str) (headers : str -> option str)
  : M str :=
  let content_disposition :=
    default [] (headers (lit "Content-Disposition")) in
  let from_header :=
    if contains (lit "filename=") content_disposition
    then strip_chars [34; 39]
           (split_last (lit "filename=") content_disposition)
    else [] in
  match from_header with
  | _ :: _ => mret from_header
  | [] =>
      let path := unquote self (urlparse_path self url) in
      let filename := basename path in
      if bool_decide (filename ≠ []) && contains [DOT] filename
      then mret filename
      else
        let content_type := default [] (headers (lit "Content-Type")) in
        let ext :=
          default (lit ".bin")
            (ext_map !! split_first (lit ";") content_type) in
        hex8 ← uuid4_hex8;
        mret (lit "file_" ++ hex8 ++ ext)
  end.

(** The two [except] clauses of [download_and_upload]. *)
Definition download_failed (url : str) (e : exn) : upload_result :=
  if decide (exn_cls e = RequestException)
  then Failure (lit "下载失败: " ++ exn_str e) (Some url)
  else Failure (exn_str e) (Some url).

Definition download_and_upload (url : str) : M upload_result :=
  _ ← log (Fetch url);
  match requests_get self url with
  | Raise e => mret (download_failed url e)
  | Return response =>
      match raise_for_status response with
      | Some e => mret (download_failed url e)
      | None =>
          filename ← _extract_filename url (headers response);
          let tmp_path := NamedTemporaryFile self (splitext filename).2 in
          match iter_content response with
          | Raise e => mret (download_failed url e)
          | Return _ => upload_file tmp_path None
          end
      end
  end.

Definition process_single_url (url : str) : M result :=
  if contains (endpoint self) url
  then mret {| original := url; converted := url;
               status := lit "skipped";
               message := Some (lit "已是 OSS 地址"); error := None |}
  else
    result ← download_and_upload url;
    mret match result with
         | Uploaded oss_url _ =>
             {| original := url; converted := oss_url;
                status := lit "success"; message := None; error := None |}
         | Failure err _ =>
             {| original := url; converted := url;
                status := lit "failed"; message := None;
                error := Some err |}
         end.
End Client.

(** The order in which [as_completed] hands the futures back: any
    rearrangement of the submitted ones. *)
Record completion_order := {
  as_completed : list str -> list str;
  as_completed_perm : ∀ urls, as_completed urls ≡ₚ urls;
}.

(** The body of the loop over [as_completed]: [future.result()] returns what
    the worker returned or raises what escaped it. *)
Definition yielded (url : str) (future_result : outcome result) : result :=
  match future_result with
  | Return r => r
  | Raise e =>
      {| original := url; converted := url; status := lit "failed";
         message := None; error := Some (exn_str e) |}
  end.

(** The sequence the generator [convert_urls_streaming] yields.
    [future_result url] is the state in which the future submitted for [url]
    completes. *)
Definition convert_urls_streaming (future_result : str -> outcome result)
    (order : completion_order) (text : str) : list result :=
  let unique_urls := extract_urls text in
  let total := length unique_urls in
  if bool_decide (total = 0%nat) then []
  else (fun url => yielded url (future_result url))
         <$> as_completed order unique_urls.

End OSSClient.

(** ** [app.py]: the task store *)

(** An element of a task's [urls] list: the plain string [convert_url]
    stores, or the dictionary the runner appends. *)
Record url_record := UrlRecord {
  original_url : str;
  oss_url : str;
  status : str;
  status_text : str;
}.

Inductive url_info :=
  | UrlStr (s : str)
  | UrlDict (r : url_record).

(** A task dictionary; [{}] has none of the keys. *)
Record task := Task {
  urls : option (list url_info);
  total : option N;
  completed : option N;
  converted_text : option str;
}.

Definition empty_dict : task :=
  {| urls := None; total := None; completed := None; converted_text := None |}.

(** [d.update(kwargs)] *)
Definition dict_update (d kwargs : task) : task :=
  {| urls := from_option Some (urls d) (urls kwargs);
     total := from_option Some (total d) (total kwargs);
     completed := from_option Some (completed d) (completed kwargs);
     converted_text :=
       from_option Some (converted_text d) (converted_text kwargs) |}.

Definition get_task (task_id : str) (tasks : gmap str task) : task :=
  default empty_dict (tasks !! task_id).

Definition update_task (task_id : str) (kwargs : task)
    (tasks : gmap str task) : gmap str task :=
  let tasks :=
    match tasks !! task_id with
    | Some _ => tasks
    | None =>
        <[task_id := {| urls := Some []; total := Some 0; completed := Some 0;
                        converted_text := Some [] |}]> tasks
    end in
  alter (fun t => dict_update t kwargs) task_id tasks.

(** ** [app.py]: submit-for-conversion *)

(** The JSON answers of [convert_url] and [get_progress]. *)
Inductive reply :=
  | Error400 (msg : str)
  | Error404 (msg : str)
  | Submitted (task_id : str) (total : N) (urls : list str)
      (converted_text : str)
  | Progress (task_id : str) (total completed : N) (converted_text : str)
      (urls : list url_info).

(** [convert_url] up to the start of the background thread. [data] is the
    parsed request body: [None] when it is missing or empty, [Some None] when
    it has no [text] key. [uuid] is the value [create_task_id] draws. The
    third component is the thread started, as the [(task_id, text)] its
    closure holds. *)
Definition convert_url (data : option (option str)) (uuid : str)
    (tasks : gmap str task) : reply * gmap str task * option (str * str) :=
  match data with
  | None | Some None => (Error400 (lit "请提供要转换的文本"), tasks, None)
  | Some (Some text) =>
      match strip text with
      | [] => (Error400 (lit "文本不能为空"), tasks, None)
      | _ :: _ =>
          let urls := OSSClient.extract_urls text in
          let total := N.of_nat (length urls) in
          if total =? 0 then (Submitted [] 0 [] text, tasks, None)
          else
            let task_id := uuid in
            let tasks :=
              update_task task_id
                {| urls := Some (UrlStr <$> urls); total := Some total;
                   completed := None; converted_text := Some text |} tasks in
            (Submitted task_id total urls text, tasks, Some (task_id, text))
      end
  end.

(** ** [app.py]: the background runner *)

Definition status_texts : gmap str str :=
  list_to_map
    [ (lit "success", lit "转换成功");
      (lit "failed", lit "转换失败");
      (lit "skipped", lit "已是 OSS 地址") ].

Definition status_text_of (status : str) : str :=
  default status (status_texts !! status).

(** What [url_info.get] raises when [url_info] is a [str]. *)
Definition no_get : exn :=
  Exn AttributeError (lit "'str' object has no attribute 'get'").

(** The loop [for url_info in task.get('urls', [])]: [Return None] when no
    entry matches, [Return (Some l)] with the matching dictionary updated in
    place. An entry that is a plain string has no [get] method. *)
Fixpoint update_url_info (original oss status status_text : str)
    (l : list url_info) : outcome (option (list url_info)) :=
  match l with
  | [] => Return None
  | UrlStr _ :: _ => Raise no_get
  | UrlDict r :: l' =>
      if decide (original_url r = original)
      then Return (Some (UrlDict {| original_url := original_url r;
                                    oss_url := oss; status := status;
                                    status_text := status_text |} :: l'))
      else
        match update_url_info original oss status status_text l' with
        | Return (Some l'') => Return (Some (UrlDict r :: l''))
        | Return None => Return None
        | Raise e => Raise e
        end
  end.

Definition terminal (status : str) : bool :=
  bool_decide (status ∈ [lit "success"; lit "failed"; lit "skipped"]).

(** [sum(1 for u in task.get('urls', []) if u['status'] in [...])]: a plain
    string cannot be indexed by a string. *)
Fixpoint count_completed (l : list url_info) : outcome N :=
  match l with
  | [] => Return 0
  | UrlStr _ :: _ =>
      Raise (Exn TypeError (lit "string indices must be integers"))
  | UrlDict r :: l' =>
      match count_completed l' with
      | Return n => Return (if terminal (status r) then n + 1 else n)
      | Raise e => Raise e
      end
  end.

(** The block under [with tasks_lock] for one result. [cur] stands for the
    variable [task]: the stored dictionary itself when [task_id] is in
    [tasks], so what is assigned to it is seen in the store; otherwise a
    fresh [{}] nobody else holds. *)
Definition record_result (task_id original oss status status_text : str)
    (new_text : str) (tasks : gmap str task)
    : gmap str task * outcome unit :=
  let cur := default empty_dict (tasks !! task_id) in
  let stored (t : task) : gmap str task :=
    match tasks !! task_id with
    | Some _ => <[task_id := t]> tasks
    | None => tasks
    end in
  let with_urls (t : task) (l : list url_info) : task :=
    {| urls := Some l; total := total t; completed := completed t;
       converted_text := converted_text t |} in
  match update_url_info original oss status status_text
          (default [] (urls cur)) with
  | Raise e => (tasks, Raise e)
  | Return found =>
      let cur :=
        match found with
        | Some l => with_urls cur l
        | None =>
            with_urls cur
              (default [] (urls cur)
               ++ [UrlDict {| original_url := original; oss_url := oss;
                              status := status;
                              status_text := status_text |}])
        end in
      match count_completed (default [] (urls cur)) with
      | Raise e => (stored cur, Raise e)
      | Return n =>
          (stored {| urls := urls cur; total := total cur;
                     completed := Some n;
                     converted_text := Some new_text |},
           Return ())
      end
  end.

(** The local variables of [run_conversion]. *)
Record locals := Locals {
  l_converted_text : str;
  url_mapping : gmap str str;
}.

(** One turn of the loop [for result in convert_urls_streaming(text)]. *)
Definition run_conversion_step (task_id : str) (loc : locals)
    (result : OSSClient.result) (tasks : gmap str task)
    : locals * gmap str task * outcome unit :=
  let original := OSSClient.original result in
  let oss := OSSClient.converted result in
  let status := OSSClient.status result in
  let status_text := status_text_of status in
  let loc :=
    if decide (status = lit "success")
    then {| l_converted_text := replace original oss (l_converted_text loc);
            url_mapping := <[original := oss]> (url_mapping loc) |}
    else loc in
  let '(tasks, r) :=
    record_result task_id original oss status status_text
      (l_converted_text loc) tasks in
  (loc, tasks, r).

(** The loop itself: an exception ends the thread with the turns that
    remain not run. *)
Fixpoint run_conversion_loop (task_id : str) (loc : locals)
    (results : list OSSClient.result) (tasks : gmap str task)
    : locals * gmap str task * outcome unit :=
  match results with
  | [] => (loc, tasks, Return ())
  | result :: results' =>
      match run_conversion_step task_id loc result tasks with
      | (loc', tasks', Return _) =>
          run_conversion_loop task_id loc' results' tasks'
      | (loc', tasks', Raise e) => (loc', tasks', Raise e)
      end
  end.

(** [run_conversion], the target of the thread started for [(task_id, text)],
    over the sequence the generator yields. *)
Definition run_conversion (task_id text : str)
    (results : list OSSClient.result) (tasks : gmap str task)
    : gmap str task * outcome unit :=
  let '(_, tasks, r) :=
    run_conversion_loop task_id
      {| l_converted_text := text; url_mapping := ∅ |} results tasks in
  (tasks, r).

(** ** [app.py]: progress polling *)

Definition get_progress (task_id : str) (tasks : gmap str task) : reply :=
  match get_task task_id tasks with
  | {| urls := None; total := None; completed := None;
       converted_text := None |} => Error404 (lit "任务不存在")
  | t =>
      Progress task_id (default 0 (total t)) (default 0 (completed t))
        (default [] (converted_text t)) (default [] (urls t))
  end.

(** ** [OSSClient.convert_urls_in_text] *)

Module InText.

(** The dictionary [convert_urls_in_text] returns. *)
Record report := Report {
  success : bool;
  original_text : str;
  converted_text : str;
  conversions : list OSSClient.result;
  total_urls : nat;
  successful : nat;
  failed : nat;
  skipped : nat;
}.

(** One turn of the loop over the generator, on the pair
    [(conversion_results, converted_text)]. *)
Definition collect (acc : list OSSClient.result * str)
    (result : OSSClient.result) : list OSSClient.result * str :=
  let '(conversion_results, converted_text) := acc in
  (conversion_results ++ [result],
   if decide (OSSClient.status result = lit "success")
   then replace (OSSClient.original result) (OSSClient.converted result)
          converted_text
   else converted_text).

(** [sum(1 for r in conversion_results if r['status'] == status)] *)
Definition count_status (status : str) (l : list OSSClient.result) : nat :=
  length (filter (λ r, OSSClient.status r = status) l).

Definition convert_urls_in_text
    (future_result : str -> outcome OSSClient.result)
    (order : OSSClient.completion_order) (text : str) : report :=
  let unique_urls := OSSClient.extract_urls text in
  let '(conversion_results, converted_text) :=
    foldl collect ([], text)
      (OSSClient.convert_urls_streaming future_result order text) in
  {| success := true;
     original_text := text;
     converted_text := converted_text;
     conversions := conversion_results;
     total_urls := length unique_urls;
     successful := count_status (lit "success") conversion_results;
     failed := count_status (lit "failed") conversion_results;
     skipped := count_status (lit "skipped") conversion_results |}.

End InText.

(** ** [app.py]: sessions and the login guard *)

Inductive http_method := GET | POST.

(** What the handlers below read of a request. *)
Record request := Request {
  method : http_method;
  form_password : option str;
  is_json : bool;
  x_requested_with : option str;
}.

(** The answers of the pages: [redirect(url_for(name))], the JSON error 401,
    and the two templates. *)
Inductive page :=
  | Redirect (name : str)
  | Json401 (msg : str)
  | LoginPage (error : option str)
  | IndexPage.

(** The session is the value under its only key, [logged_in], if any;
    [logged_in s] is the truth value of [session.get('logged_in')]. *)
Definition logged_in (s : option bool) : bool := default false s.

Definition login (AUTH_PASSWORD : str) (req : request) (s : option bool)
  : page * option bool :=
  if logged_in s then (Redirect (lit "index"), s)
  else
    match method req with
    | POST =>
        let password := default [] (form_password req) in
        if decide (password = AUTH_PASSWORD)
        then (Redirect (lit "index"), Some true)
        else (LoginPage (Some (lit "密码错误，请重试")), s)
    | GET => (LoginPage None, s)
    end.

Definition logout (s : option bool) : page * option bool :=
  (Redirect (lit "login"), None).

(** [login_required(f)] applied to a request: the answer of the guard, or
    what [f] returns. *)
Definition login_required {A : Type} (f : A) (req : request)
    (s : option bool) : page + A :=
  if negb (logged_in s) then
    if is_json req
       || bool_decide (x_requested_with req = Some (lit "XMLHttpRequest"))
    then inl (Json401 (lit "请先登录"))
    else inl (Redirect (lit "login"))
  else inr f.

Definition index : page := IndexPage.

(** ** [app.py]: direct upload *)

Inductive upload_reply :=
  | Upload400 (msg : str)
  | Upload200 (url filename object_key : str)
  | Upload500 (msg : str).

(** The route [upload_file]. [file] is [request.files.get('file')] as the
    pair of its [filename] and its stream; [secure_filename] is the function
    of that name of Werkzeug. The uploader always sets [error] when it fails,
    so the default of [result.get] is never used. *)
Definition upload_file (secure_filename : str -> str) (self : Collaborators)
    (file : option (str * str)) : M upload_reply :=
  match file with
  | None => mret (Upload400 (lit "没有选择文件"))
  | Some (file_filename, stream) =>
      match file_filename with
      | [] => mret (Upload400 (lit "没有选择文件"))
      | _ :: _ =>
          let filename :=
            match secure_filename file_filename with
            | [] => file_filename
            | safe => safe
            end in
          result ← OSSClient.upload_from_stream self stream filename;
          mret match result with
               | OSSClient.Uploaded url object_key =>
                   Upload200 url filename object_key
               | OSSClient.Failure err _ => Upload500 err
               end
      end
  end.

(** ** [app.py]: the shape of the stored tasks *)

(** A task dictionary with its four keys, as [update_task] creates it. *)
Definition has_all_keys (t : task) : Prop :=
  is_Some (urls t) ∧ is_Some (total t) ∧ is_Some (completed t)
  ∧ is_Some (converted_text t).

(** A store in which every task has its four keys. *)
Definition well_keyed (tasks : gmap str task) : Prop :=
  ∀ task_id t, tasks !! task_id = Some t → has_all_keys t.

(** ** Concrete collaborators for the examples *)

(** A storage that accepts every object, behind a web in which every URL
    answers with an empty PNG; the [n]-th UUID ends its first eight hex
    digits with the decimal digit [n mod 10]. *)
Definition demo_client : Collaborators := {|
  endpoint := lit "http://nas2net.cn:4003";
  bucket_name := lit "OSS_Buckets";
  url_expires := 3600;
  requests_get := fun _ =>
    Return {| raise_for_status := None;
              headers := fun h =>
                if decide (h = lit "Content-Type")
                then Some (lit "image/png; charset=binary") else None;
              iter_content := Return [] |};
  urlparse_path := http_urlparse_path;
  unquote := urllib_unquote;
  NamedTemporaryFile := fun suffix => lit "/tmp/tmpk3x9" ++ suffix;
  path_exists := fun _ => true;
  s3_upload := fun _ _ => None;
  generate_presigned_url := fun bucket key _ =>
    Return (lit "http://nas2net.cn:4003/" ++ bucket ++ lit "/" ++ key);
  uuid4_hex := fun n =>
    lit "3f9c1a7" ++ [48 + N.of_nat n mod 10]
    ++ lit "5b2e4d0c9a8b7c6d5e4f3a2b";
|}.

(** The same storage when two UUIDs drawn one after the other differ only
    after their first eight hex digits. *)
Definition colliding_client : Collaborators := {|
  endpoint := endpoint demo_client;
  bucket_name := bucket_name demo_client;
  url_expires := url_expires demo_client;
  requests_get := requests_get demo_client;
  urlparse_path := urlparse_path demo_client;
  unquote := unquote demo_client;
  NamedTemporaryFile := NamedTemporaryFile demo_client;
  path_exists := path_exists demo_client;
  s3_upload := s3_upload demo_client;
  generate_presigned_url := generate_presigned_url demo_client;
  uuid4_hex := fun n =>
    lit "3f9c1a70" ++ lit "5b2e4d0c9a8b7c6d5e4f3a2"
    ++ [48 + N.of_nat n mod 10];
|}.

Definition in_order : OSSClient.completion_order :=
  {| OSSClient.as_completed := fun urls => urls;
     OSSClient.as_completed_perm := fun urls => reflexivity urls |}.

Definition reversed : OSSClient.completion_order :=
  {| OSSClient.as_completed := reverse;
     OSSClient.as_completed_perm := reverse_Permutation |}.

Definition start : world := {| calls := []; uuids_drawn := 0 |}.

(** The future of a URL when its worker runs [process_single_url] against
    [self] and nothing escapes it. *)
Definition worker (self : Collaborators) (url : str)
  : outcome OSSClient.result :=
  Return (OSSClient.process_single_url self url start).1.

(** The same, with a fault escaping the worker of one URL. *)
Definition faulty_worker (self : Collaborators) (bad : str) (url : str)
  : outcome OSSClient.result :=
  if decide (url = bad) then Raise (Exn OtherException (lit "worker crashed"))
  else worker self url.





Definition visit_twice : str :=
  lit "visit http://a.com then http://a.com again".

Definition two_urls : str :=
  lit "first http://x.com/1.jpg then http://y.org/doc.pdf".

Definition same_url_twice : str :=
  lit "a http://x.com/1.jpg b http://x.com/1.jpg c".

Definition task_1 : str := lit "6f1d2c3b-0a4e-4c5d-9e8f-7a6b5c4d3e2f".

(** A store whose only task has an empty list of entries. *)
Definition store_with_empty_task : gmap str task :=
  update_task task_1 empty_dict ∅.

(** The same storage behind a web that cannot be reached. *)
Definition offline_client : Collaborators := {|
  endpoint := endpoint demo_client;
  bucket_name := bucket_name demo_client;
  url_expires := url_expires demo_client;
  requests_get := fun _ =>
    Raise (Exn RequestException (lit "connection timed out"));
  urlparse_path := urlparse_path demo_client;
  unquote := unquote demo_client;
  NamedTemporaryFile := NamedTemporaryFile demo_client;
  path_exists := path_exists demo_client;
  s3_upload := s3_upload demo_client;
  generate_presigned_url := generate_presigned_url demo_client;
  uuid4_hex := uuid4_hex demo_client;
|}.

(** The same web in front of a storage that refuses the credentials. *)
Definition no_credentials_client : Collaborators := {|
  endpoint := endpoint demo_client;
  bucket_name := bucket_name demo_client;
  url_expires := url_expires demo_client;
  requests_get := requests_get demo_client;
  urlparse_path := urlparse_path demo_client;
  unquote := unquote demo_client;
  NamedTemporaryFile := NamedTemporaryFile demo_client;
  path_exists := path_exists demo_client;
  s3_upload := fun _ _ =>
    Some (Exn NoCredentialsError (lit "Unable to locate credentials"));
  generate_presigned_url := generate_presigned_url demo_client;
  uuid4_hex := uuid4_hex demo_client;
|}.

(** * Properties *)

(** ** URL extraction *)

Section Extract.
Import OSSClient.

Lemma extract_step_fold (l : list str) :
  ∀ (seen : gset str) (acc : list str),
    (∀ x, x ∈ seen ↔ x ∈ acc) → NoDup acc →
    let r := (foldl extract_step (seen, acc) l).2 in
    NoDup r
    ∧ (∀ x, x ∈ r ↔ x ∈ acc ∨ x ∈ l)
    ∧ (∃ k, r = acc ++ k)
    ∧ (∀ l1 u l2, l = l1 ++ u :: l2 → u ∉ l1 → u ∉ acc →
         ∃ r1 r2, r = r1 ++ u :: r2 ∧ ∀ v, v ∈ r1 ↔ v ∈ acc ∨ v ∈ l1).
Proof.
  induction l as [|x l IH]; intros seen acc Hseen Hnd; simpl.
  - repeat split; try done.
    + set_solver.
    + intros [?|?]; [done | set_solver].
    + exists []. by rewrite app_nil_r.
    + intros [|??] ???; discriminate.
  - destruct (decide (x ∈ seen)) as [Hin|Hnin].
    + destruct (IH seen acc Hseen Hnd) as (IH1 & IH2 & IH3 & IH4).
      apply Hseen in Hin.
      split; [done|]. split; [|split; [done|]].
      * intros y. rewrite IH2. set_solver.
      * intros [|y l1] u l2 Heq Hu1 Hu2; simplify_eq/=; [done|].
        destruct (IH4 l1 u l2 eq_refl) as (r1 & r2 & -> & Hr1);
          [set_solver | done |].
        exists r1, r2. split; [done|]. intros v. rewrite Hr1. set_solver.
    + assert (x ∉ acc) as Hx by (by rewrite <- Hseen).
      destruct (IH ({[x]} ∪ seen) (acc ++ [x])) as (IH1 & IH2 & IH3 & IH4).
      { intros y. rewrite elem_of_union, elem_of_singleton, elem_of_app,
          list_elem_of_singleton, Hseen. tauto. }
      { apply NoDup_app. split; [done|]. split; [|apply NoDup_singleton].
        intros y Hy ->%list_elem_of_singleton. done. }
      split; [done|]. split; [|split].
      * intros y. rewrite IH2. set_solver.
      * destruct IH3 as [k ->]. exists (x :: k). by rewrite <- app_assoc.
      * intros [|y l1] u l2 Heq Hu1 Hu2; simplify_eq/=.
        -- destruct IH3 as [k Hk]. exists acc, k. split.
           ++ by rewrite Hk, <- app_assoc.
           ++ set_solver.
        -- destruct (IH4 l1 u l2 eq_refl) as (r1 & r2 & Hr & Hr1);
             [set_solver | set_solver |].
           exists r1, r2. split; [done|]. intros v. rewrite Hr1. set_solver.
Qed.

Lemma startswith_app (p s : str) : startswith p (p ++ s) = true.
Proof.
  unfold startswith. induction p as [|a p IH]; simpl; [done|].
  by rewrite N.eqb_refl.
Qed.

Lemma strip_prefix_Some (p s r : str) :
  strip_prefix p s = Some r → s = p ++ r.
Proof.
  revert s. induction p as [|a p IH]; intros [|b s]; simpl; try done.
  - by intros [= ->].
  - by intros [= ->].
  - destruct (a =? b) eqn:Hab; [|done].
    apply N.eqb_eq in Hab as ->. by intros ->%IH.
Qed.

Lemma span_rest (p : char → bool) (s run rest : str) :
  span p s = (run, rest) →
  rest = [] ∨ ∃ c r, rest = c :: r ∧ p c = false.
Proof.
  revert run. induction s as [|c s IH]; intros run; simpl.
  - intros [= <- <-]. by left.
  - destruct (p c) eqn:Hc.
    + destruct (span p s) as [run' rest'] eqn:Hs. intros [= <- <-]. eauto.
    + intros [= <- <-]. right. eauto.
Qed.

(** After the greedy run the trailing group of the pattern has nothing to
    take: what follows the run is outside the class, and a dot is in it. *)
Lemma dot_groups_after_run (s run rest : str) (fuel : nat) :
  span url_char s = (run, rest) → dot_groups fuel rest = [].
Proof.
  intros [->|(c & r & -> & Hc)]%span_rest; destruct fuel; simpl; try done.
  destruct (c =? DOT) eqn:Hdot; [|done].
  apply N.eqb_eq in Hdot as ->. discriminate Hc.
Qed.

Lemma match_after_scheme_Some (s m : str) :
  match_after_scheme s = Some m →
  ∃ run rest, s = lit "://" ++ run ++ rest ∧ run ≠ []
              ∧ span url_char (run ++ rest) = (run, rest)
              ∧ m = lit "://" ++ run.
Proof.
  unfold match_after_scheme.
  destruct (strip_prefix (lit "://") s) as [body|] eqn:Hp; [|done].
  destruct (span url_char body) as [run rest] eqn:Hs.
  destruct run as [|c run]; [done|]. intros [= <-].
  rewrite (dot_groups_after_run _ _ _ _ Hs), app_nil_r.
  assert (body = (c :: run) ++ rest) as Hbody.
  { clear Hp. revert Hs. generalize (c :: run). clear c run.
    induction body as [|d body IH]; intros run; simpl.
    - by intros [= <- <-].
    - destruct (url_char d); [|by intros [= <- <-]].
      destruct (span url_char body) as [run' rest'] eqn:Hs'.
      intros [= <- <-]. simpl. f_equal. by apply IH. }
  exists (c :: run), rest. split_and!; try done.
  - apply strip_prefix_Some in Hp. by rewrite Hp, Hbody.
  - by rewrite <- Hbody.
Qed.

Lemma http_colon : lit "http" ++ lit "://" = lit "http://".
Proof. vm_compute. reflexivity. Qed.

Lemma https_colon : lit "https" ++ lit "://" = lit "https://".
Proof. vm_compute. reflexivity. Qed.

Lemma match_url_scheme (s m : str) :
  match_url s = Some m →
  startswith (lit "http://") m = true ∨ startswith (lit "https://") m = true.
Proof.
  unfold match_url.
  destruct (strip_prefix (lit "http") s) as [r|]; [|done].
  assert (∀ t, (lit "http" ++.) <$> match_after_scheme t = Some m →
               startswith (lit "http://") m = true) as Hhttp.
  { intros t Ht. destruct (match_after_scheme t) as [m'|] eqn:Hm; [|done].
    apply match_after_scheme_Some in Hm as (run & rest & _ & _ & _ & ->).
    change (Some (lit "http" ++ lit "://" ++ run) = Some m) in Ht.
    apply (inj Some) in Ht as <-.
    rewrite app_assoc, http_colon. apply startswith_app. }
  destruct r as [|c r']; [eauto|].
  destruct (c =? 115); [|eauto].
  destruct (match_after_scheme r') as [m'|] eqn:Hm; [|eauto].
  intros <-%(inj Some). right.
  apply match_after_scheme_Some in Hm as (run & rest & _ & _ & _ & ->).
  rewrite app_assoc, https_colon. apply startswith_app.
Qed.

Lemma findall_from_matches (s : str) :
  ∀ skip u, u ∈ findall_from skip s → ∃ s', match_url s' = Some u.
Proof.
  induction s as [|c s IH]; intros skip u; simpl; [by intros ?%elem_of_nil|].
  destruct skip as [|k]; [|by apply IH].
  destruct (match_url (c :: s)) as [m|] eqn:Hm; [|by apply IH].
  intros [->|Hu]%elem_of_cons; [eauto | by eapply IH].
Qed.

(** C3. [extract_urls] is a function of the text alone. It returns the
    matches of the URL pattern without duplicates and in the order of their
    first occurrences: a URL is returned exactly when it is matched, every
    returned URL starts with [http://] or [https://], and the URLs returned
    before [u] are exactly those matched before the first match of [u].
    On the empty text it returns the empty list. *)
Theorem extract_urls_first_occurrences (text : str) :
  NoDup (extract_urls text)
  ∧ (∀ u, u ∈ extract_urls text ↔ u ∈ findall text)
  ∧ (∀ u, u ∈ extract_urls text →
       startswith (lit "http://") u = true
       ∨ startswith (lit "https://") u = true)
  ∧ (∀ l1 u l2, findall text = l1 ++ u :: l2 → u ∉ l1 →
       ∃ r1 r2, extract_urls text = r1 ++ u :: r2 ∧ ∀ v, v ∈ r1 ↔ v ∈ l1)
  ∧ extract_urls [] = [].
Proof.
  unfold extract_urls.
  destruct (extract_step_fold (findall text) ∅ [])
    as (Hnd & Hin & _ & Hord); [set_solver | constructor |].
  split_and!; try done.
  - intros u. rewrite Hin. set_solver.
  - intros u Hu. apply Hin in Hu as [Hu|Hu]; [set_solver|].
    apply findall_from_matches in Hu as [s' Hs'].
    by eapply match_url_scheme.
  - intros l1 u l2 Heq Hu.
    destruct (Hord l1 u l2 Heq Hu) as (r1 & r2 & ? & Hr1); [set_solver|].
    exists r1, r2. split; [done|]. intros v. rewrite Hr1. set_solver.
Qed.

Lemma extract_urls_first_occurrences_witness :
  findall visit_twice = [] ++ lit "http://a.com" :: [lit "http://a.com"]
  ∧ ∃ r1 r2, extract_urls visit_twice = r1 ++ lit "http://a.com" :: r2
             ∧ ∀ v, v ∈ r1 ↔ v ∈ [].
Proof.
  split; [vm_compute; reflexivity|].
  apply (extract_urls_first_occurrences visit_twice)
    with (l2 := [lit "http://a.com"]).
  - vm_compute; reflexivity.
  - apply not_elem_of_nil.
Defined.

Example extract_urls_visit_twice :
  extract_urls visit_twice = [lit "http://a.com"].
Proof. vm_compute. reflexivity. Qed.

Example extract_urls_punctuation :
  extract_urls
    (lit "(see http://q.r/s) and https://a.b/c?d=1. <http://z> https://")
  = [lit "http://q.r/s"; lit "https://a.b/c?d=1."; lit "http://z"].
Proof. vm_compute. reflexivity. Qed.
Lemma match_url_space (d : char) (t : str) :
  is_space d = true → match_url (d :: t) = None.
Proof.
  intros Hd. unfold match_url.
  replace (lit "http") with [104; 116; 116; 112] by (vm_compute; reflexivity).
  cbn [strip_prefix].
  destruct (104 =? d) eqn:E; [|done].
  apply N.eqb_eq in E as <-. discriminate Hd.
Qed.

Lemma findall_spaces (t : str) :
  Forall (λ c, is_space c = true) t → findall t = [].
Proof.
  unfold findall. induction 1 as [|d t Hd Ht IH]; [done|].
  cbn [findall_from]. by rewrite match_url_space.
Qed.

Lemma lstrip_nil (t : str) :
  lstrip t = [] → Forall (λ c, is_space c = true) t.
Proof.
  unfold lstrip. induction t as [|d t IH]; [constructor|]. cbn [span].
  destruct (is_space d) eqn:Hd; [|done].
  destruct (span is_space t) eqn:Ht. simpl in *. auto.
Qed.

Lemma lstrip_spaces (t : str) :
  Forall (λ c, is_space c = true) (lstrip t) →
  Forall (λ c, is_space c = true) t.
Proof.
  unfold lstrip. induction t as [|d t IH]; [constructor|]. cbn [span].
  destruct (is_space d) eqn:Hd; [|done].
  destruct (span is_space t) eqn:Ht. simpl in *. auto.
Qed.

(** A text [convert_url] rejects as blank has no URL in it. *)
Lemma blank_has_no_urls (text : str) :
  strip text = [] → extract_urls text = [].
Proof.
  unfold strip, extract_urls. intros Hs.
  apply (f_equal reverse) in Hs. rewrite reverse_involutive in Hs.
  change (reverse []) with (@nil N) in Hs.
  apply lstrip_nil in Hs. rewrite Forall_reverse in Hs.
  apply lstrip_spaces in Hs. by rewrite findall_spaces.
Qed.
End Extract.

(** ** Object keys and filenames *)

Section Upload.
Import OSSClient.

Lemma splitext_app (p : str) : (splitext p).1 ++ (splitext p).2 = p.
Proof.
  unfold splitext. destruct (rfind DOT p) as [i|]; [|apply app_nil_r].
  case_match; simpl; [apply take_drop | apply app_nil_r].
Qed.

Lemma unique_key_eq (filename hex8 : str) :
  unique_key filename hex8
  = (splitext filename).1 ++ lit "_" ++ hex8 ++ (splitext filename).2.
Proof. unfold unique_key. by destruct (splitext filename). Qed.

Lemma unique_key_inj (filename h1 h2 : str) :
  unique_key filename h1 = unique_key filename h2 ↔ h1 = h2.
Proof.
  split; [|by intros ->]. rewrite !unique_key_eq.
  intros H%app_inv_head%app_inv_head. by apply app_inv_tail in H.
Qed.

Lemma put_object_Uploaded self key url k w w' :
  put_object self key w = (Uploaded url k, w') →
  k = key
  ∧ generate_presigned_url self (bucket_name self) key (url_expires self)
    = Return url.
Proof.
  unfold put_object, mbind, M_bind, mret, M_ret, log. simpl.
  destruct (s3_upload self _ _) as [e|]; simpl.
  - case_decide; intros [=].
  - destruct (generate_presigned_url self _ _ _) as [u|e]; simpl.
    + by intros [= -> -> ?].
    + case_decide; intros [=].
Qed.

Lemma upload_from_stream_key self stream filename url key w w' :
  upload_from_stream self stream filename w = (Uploaded url key, w') →
  key = unique_key filename (take 8 (uuid4_hex self (uuids_drawn w)))
  ∧ generate_presigned_url self (bucket_name self) key (url_expires self)
    = Return url.
Proof.
  unfold upload_from_stream, mbind, M_bind, uuid4_hex8. simpl.
  intros [-> ?]%put_object_Uploaded. done.
Qed.

Lemma upload_file_key self file_path url key w w' :
  upload_file self file_path None w = (Uploaded url key, w') →
  key = unique_key (basename file_path)
          (take 8 (uuid4_hex self (uuids_drawn w)))
  ∧ generate_presigned_url self (bucket_name self) key (url_expires self)
    = Return url.
Proof.
  unfold upload_file. destruct (path_exists self file_path); simpl.
  - unfold mbind, M_bind, uuid4_hex8, mret, M_ret. simpl.
    intros [-> ?]%put_object_Uploaded. done.
  - intros [=].
Qed.

(** C8, as stated, fails: two uploads of [test.txt] with an empty body get
    the same object key (and the same URL) when the two UUIDs drawn, though
    different, agree on their first eight hex digits. *)
Lemma same_filename_same_key :
  ¬ (∀ self stream filename w url1 key1 w1 url2 key2 w2,
       upload_from_stream self stream filename w = (Uploaded url1 key1, w1) →
       upload_from_stream self stream filename w1
         = (Uploaded url2 key2, w2) →
       key1 ≠ key2).
Proof.
  intros H.
  assert (uuid4_hex colliding_client 0 ≠ uuid4_hex colliding_client 1)
    as _ by (vm_compute; discriminate).
  refine (H colliding_client [] (lit "test.txt") start
            _ (lit "test_3f9c1a70.txt") _ _ (lit "test_3f9c1a70.txt") _
            _ _ eq_refl);
    vm_compute; reflexivity.
Qed.

(** What an upload leaves in the world, whether it succeeds or not: the
    next UUID is drawn and the object is sent under the key made with it. *)
Lemma put_object_sends self key w :
  uuids_drawn (put_object self key w).2 = uuids_drawn w
  ∧ ∃ later, calls (put_object self key w).2
             = calls w ++ Upload (bucket_name self) key :: later.
Proof.
  unfold put_object, mbind, M_bind, mret, M_ret, log. simpl.
  destruct (s3_upload self _ _); simpl; [eauto|].
  destruct (generate_presigned_url self _ _ _); simpl;
    rewrite <- app_assoc; eauto.
Qed.

Lemma upload_from_stream_sends self stream filename w :
  let key := unique_key filename (take 8 (uuid4_hex self (uuids_drawn w))) in
  uuids_drawn (upload_from_stream self stream filename w).2
  = S (uuids_drawn w)
  ∧ ∃ later, calls (upload_from_stream self stream filename w).2
             = calls w ++ Upload (bucket_name self) key :: later.
Proof.
  unfold upload_from_stream, mbind, M_bind, uuid4_hex8. simpl.
  match goal with
  | |- context [put_object self ?k ?w0] =>
      destruct (put_object_sends self k w0) as [Hu Hc]
  end.
  by rewrite Hu.
Qed.

(** C8, amended. Every upload draws the next UUID, and its object key is the
    filename with an underscore and the first eight hex digits of that UUID
    inserted between its base name and its extension ([upload_file] takes
    the base name of the path for the filename). The object is sent under
    that key whether the upload succeeds or not, and a success returns the
    key and the URL presigned for it. Two uploads of the same filename, one
    after the other, get distinct keys exactly when the first eight digits
    of their two UUIDs differ, and then distinct URLs whenever the presigned
    URL determines the key. *)
Theorem object_keys_differ_iff_suffixes_differ
    self (stream : str) (filename : str) w :
  let n := uuids_drawn w in
  let suffix k := take 8 (uuid4_hex self k) in
  let presigned key :=
    generate_presigned_url self (bucket_name self) key (url_expires self) in
  let first := upload_from_stream self stream filename w in
  let second := upload_from_stream self stream filename first.2 in
  let key1 := unique_key filename (suffix n) in
  let key2 := unique_key filename (suffix (S n)) in
  key1 = (splitext filename).1 ++ lit "_" ++ suffix n
         ++ (splitext filename).2
  ∧ key2 = (splitext filename).1 ++ lit "_" ++ suffix (S n)
           ++ (splitext filename).2
  ∧ (splitext filename).1 ++ (splitext filename).2 = filename
  ∧ uuids_drawn first.2 = S n
  ∧ uuids_drawn second.2 = S (S n)
  ∧ (∃ later, calls first.2
              = calls w ++ Upload (bucket_name self) key1 :: later)
  ∧ (∃ later, calls second.2
              = calls first.2 ++ Upload (bucket_name self) key2 :: later)
  ∧ (∀ url key, first.1 = Uploaded url key →
       key = key1 ∧ presigned key1 = Return url)
  ∧ (∀ url key, second.1 = Uploaded url key →
       key = key2 ∧ presigned key2 = Return url)
  ∧ (key1 ≠ key2 ↔ suffix n ≠ suffix (S n))
  ∧ (∀ url1 k1 url2 k2,
       first.1 = Uploaded url1 k1 → second.1 = Uploaded url2 k2 →
       (∀ k k' u, presigned k = Return u → presigned k' = Return u → k = k') →
       suffix n ≠ suffix (S n) → url1 ≠ url2)
  ∧ (∀ file_path, path_exists self file_path = true →
       let third := upload_file self file_path None w in
       let key3 := unique_key (basename file_path) (suffix n) in
       key3 = (splitext (basename file_path)).1 ++ lit "_" ++ suffix n
              ++ (splitext (basename file_path)).2
       ∧ uuids_drawn third.2 = S n
       ∧ (∃ later, calls third.2
                   = calls w ++ Upload (bucket_name self) key3 :: later)
       ∧ (∀ url key, third.1 = Uploaded url key →
            key = key3 ∧ presigned key3 = Return url)).
Proof.
  intros n suffix presigned first second key1 key2.
  destruct (upload_from_stream_sends self stream filename w) as [Hu1 Hc1].
  destruct (upload_from_stream_sends self stream filename first.2)
    as [Hu2 Hc2].
  fold first in Hu1, Hc1. fold second in Hu2, Hc2.
  rewrite Hu1 in Hu2, Hc2. fold n in Hu1, Hu2, Hc1, Hc2.
  assert (∀ url key, first.1 = Uploaded url key →
                     key = key1 ∧ presigned key1 = Return url) as Hfirst.
  { intros url key Hr. subst first.
    destruct (upload_from_stream self stream filename w) as [r w'] eqn:Hup.
    simpl in Hr. subst r. apply upload_from_stream_key in Hup as [-> Hp].
    done. }
  assert (∀ url key, second.1 = Uploaded url key →
                     key = key2 ∧ presigned key2 = Return url) as Hsecond.
  { intros url key Hr. subst second.
    destruct (upload_from_stream self stream filename first.2)
      as [r w'] eqn:Hup.
    simpl in Hr. subst r. apply upload_from_stream_key in Hup as [-> Hp].
    by rewrite Hu1 in Hp |- *. }
  split_and!; try done.
  - apply unique_key_eq.
  - apply unique_key_eq.
  - apply splitext_app.
  - subst key1 key2. by rewrite unique_key_inj.
  - intros url1 k1 url2 k2 [-> Hp1]%Hfirst [-> Hp2]%Hsecond Hinj Hne ->.
    apply Hne. eapply unique_key_inj, Hinj; eauto.
  - intros file_path Hex third key3. split_and!.
    + apply unique_key_eq.
    + subst third. unfold upload_file. rewrite Hex. simpl.
      unfold mbind, M_bind, mret, M_ret, uuid4_hex8. simpl.
      match goal with
      | |- context [put_object self ?k ?w0] =>
          destruct (put_object_sends self k w0) as [Hu _]
      end.
      by rewrite Hu.
    + subst third. unfold upload_file. rewrite Hex. simpl.
      unfold mbind, M_bind, mret, M_ret, uuid4_hex8. simpl.
      match goal with
      | |- context [put_object self ?k ?w0] =>
          destruct (put_object_sends self k w0) as [_ Hc]
      end.
      exact Hc.
    + intros url key Hr. subst third.
      destruct (upload_file self file_path None w) as [r w'] eqn:Hup.
      simpl in Hr. subst r. by apply upload_file_key in Hup as [-> Hp].
Qed.

Lemma object_keys_differ_iff_suffixes_differ_witness :
  let first := upload_from_stream demo_client [] (lit "test.txt") start in
  let second := upload_from_stream demo_client [] (lit "test.txt") first.2 in
  first.1
  = Uploaded (lit "http://nas2net.cn:4003/OSS_Buckets/test_3f9c1a70.txt")
      (lit "test_3f9c1a70.txt")
  ∧ second.1
    = Uploaded (lit "http://nas2net.cn:4003/OSS_Buckets/test_3f9c1a71.txt")
        (lit "test_3f9c1a71.txt")
  ∧ uuids_drawn second.2 = 2%nat
  ∧ lit "http://nas2net.cn:4003/OSS_Buckets/test_3f9c1a70.txt"
    ≠ lit "http://nas2net.cn:4003/OSS_Buckets/test_3f9c1a71.txt".
Proof.
  intros first second.
  destruct (object_keys_differ_iff_suffixes_differ demo_client []
              (lit "test.txt") start)
    as (_ & _ & _ & _ & Hn & _ & _ & _ & _ & _ & Hurls & _).
  split_and!; [vm_compute; reflexivity | vm_compute; reflexivity | exact Hn |].
  apply (Hurls _ (lit "test_3f9c1a70.txt") _ (lit "test_3f9c1a71.txt")).
  - vm_compute; reflexivity.
  - vm_compute; reflexivity.
  - intros k k' u [= <-] [= Heq]. by symmetry.
  - vm_compute; discriminate.
Defined.
End Upload.

(** ** Filename inference *)

Section Filename.
Import OSSClient.



End Filename.

(** ** The per-URL worker and the orchestrator *)

Section Worker.
Import OSSClient.

(** A URL that is not a storage URL is fetched: the skip is the only path
    of the worker on which the call log stays as it was. *)
Lemma process_single_url_fetches self url w :
  contains (endpoint self) url = false →
  ∃ later, calls (process_single_url self url w).2
           = calls w ++ Fetch url :: later.
Proof.
  intros Hno. unfold process_single_url. rewrite Hno.
  unfold mbind, M_bind, mret, M_ret.
  destruct (download_and_upload self url w) as [res w'] eqn:Hd. simpl.
  revert Hd. unfold download_and_upload, mbind, M_bind, mret, M_ret, log.
  simpl.
  destruct (requests_get self url) as [resp|e];
    [|intros [= _ <-]; by exists []].
  destruct (raise_for_status resp); [intros [= _ <-]; by exists []|].
  destruct (_extract_filename self url (headers resp) _) as [fn w1] eqn:Hf.
  assert (calls w1 = calls w ++ [Fetch url]) as Hw1.
  { revert Hf. unfold _extract_filename, mbind, M_bind, mret, M_ret,
      uuid4_hex8.
    repeat case_match; intros [= _ <-]; done. }
  destruct (iter_content resp); [|intros [= _ <-]; rewrite Hw1; by exists []].
  unfold upload_file, put_object, mbind, M_bind, mret, M_ret, log,
    uuid4_hex8.
  repeat case_match; simplify_eq/=; intros [= _ <-]; simpl; rewrite ?Hw1;
    rewrite <- ?app_assoc; simpl; eauto.
Qed.

(** C4, as stated, fails on the reason: the worker gives its own text,
    not the English one. *)
Lemma skipped_reason_is_not_the_english_text :
  let url := lit "http://nas2net.cn:4003/OSS_Buckets/a_1b2c3d4e.png" in
  contains (endpoint demo_client) url = true
  ∧ message (process_single_url demo_client url start).1
    ≠ Some (lit "already a storage URL").
Proof. split; [vm_compute; reflexivity | vm_compute; discriminate]. Qed.

(** C4, amended. A URL that contains the endpoint string of the storage is
    classified [skipped] with the message [已是 OSS 地址] (it is already an
    OSS address), is kept as its own conversion, and the worker makes no
    call at all for it: no fetch, no upload. *)
Theorem process_single_url_skips_storage_urls self url w :
  contains (endpoint self) url = true →
  process_single_url self url w
  = ({| original := url; converted := url; status := lit "skipped";
        message := Some (lit "已是 OSS 地址"); error := None |}, w)
  ∧ calls (process_single_url self url w).2 = calls w.
Proof.
  intros Hin. unfold process_single_url. by rewrite Hin.
Qed.

Lemma process_single_url_skips_storage_urls_witness :
  let url := lit "http://nas2net.cn:4003/OSS_Buckets/a_1b2c3d4e.png" in
  status (process_single_url demo_client url start).1 = lit "skipped"
  ∧ calls (process_single_url demo_client url start).2 = [].
Proof.
  intros url.
  destruct (process_single_url_skips_storage_urls demo_client url start)
    as [Heq Hcalls]; [vm_compute; reflexivity|].
  split; [by rewrite Heq | exact Hcalls].
Defined.

(** C5. For every completion order and whatever each future does, the
    generator yields one result per extracted URL: the worker's result
    where it returned one, and where an exception escaped the worker a
    [failed] result for that URL carrying [str(e)]. The exception of one
    URL takes nothing away from the others. *)
Theorem convert_urls_streaming_isolates_faults
    (future_result : str → outcome result) (order : completion_order)
    (text : str) :
  let stream := convert_urls_streaming future_result order text in
  stream ≡ₚ (λ url, yielded url (future_result url)) <$> extract_urls text
  ∧ length stream = length (extract_urls text)
  ∧ (∀ url e, url ∈ extract_urls text → future_result url = Raise e →
       {| original := url; converted := url; status := lit "failed";
          message := None; error := Some (exn_str e) |} ∈ stream)
  ∧ (∀ url r, url ∈ extract_urls text → future_result url = Return r →
       r ∈ stream).
Proof.
  intros stream.
  assert (stream ≡ₚ (λ url, yielded url (future_result url))
                      <$> extract_urls text) as Hperm.
  { subst stream. unfold convert_urls_streaming. case_bool_decide as Hlen.
    - apply nil_length_inv in Hlen. by rewrite Hlen.
    - apply fmap_Permutation, as_completed_perm. }
  split_and!; [done | by rewrite Hperm, length_fmap | |].
  - intros url e Hin He. rewrite Hperm. apply list_elem_of_fmap.
    exists url. by rewrite He.
  - intros url r Hin Hr. rewrite Hperm. apply list_elem_of_fmap.
    exists url. by rewrite Hr.
Qed.

Lemma convert_urls_streaming_isolates_faults_witness :
  let stream :=
    convert_urls_streaming
      (faulty_worker demo_client (lit "http://x.com/1.jpg")) reversed
      two_urls in
  {| original := lit "http://x.com/1.jpg";
     converted := lit "http://x.com/1.jpg"; status := lit "failed";
     message := None; error := Some (lit "worker crashed") |} ∈ stream
  ∧ (process_single_url demo_client (lit "http://y.org/doc.pdf") start).1
    ∈ stream.
Proof.
  intros stream.
  destruct (convert_urls_streaming_isolates_faults
              (faulty_worker demo_client (lit "http://x.com/1.jpg"))
              reversed two_urls) as (_ & _ & Hraise & Hreturn).
  split.
  - apply (Hraise (lit "http://x.com/1.jpg")
             (Exn OtherException (lit "worker crashed")));
      [vm_compute; apply list_elem_of_here | vm_compute; reflexivity].
  - apply (Hreturn (lit "http://y.org/doc.pdf"));
      [vm_compute; apply list_elem_of_further, list_elem_of_here
      | vm_compute; reflexivity].
Defined.

End Worker.

(** ** Submit-for-conversion *)

Section Submit.
Import OSSClient.

(** C6, as stated, fails on blank texts: a text of white space has no URL,
    and the answer is the error 400 of the guard, not [total = 0]. *)
Lemma blank_text_is_rejected :
  extract_urls (lit "  ") = []
  ∧ ∀ tasks uuid task_id urls text',
      (convert_url (Some (Some (lit "  "))) uuid tasks).1.1
      ≠ Submitted task_id 0 urls text'.
Proof. split; [vm_compute; reflexivity | intros; vm_compute; discriminate]. Qed.

(** C6, amended. For a text that is not blank and in which no URL is
    found, [convert_url] answers at once with an empty task id, [total = 0],
    no URLs and the text itself. For a blank one it answers with the error
    400. In both cases the task store is left as it was and no runner is
    started. *)
Theorem convert_url_without_urls (text uuid : str) (tasks : gmap str task) :
  extract_urls text = [] →
  (strip text ≠ [] →
     convert_url (Some (Some text)) uuid tasks
     = (Submitted [] 0 [] text, tasks, None))
  ∧ (strip text = [] →
       convert_url (Some (Some text)) uuid tasks
       = (Error400 (lit "文本不能为空"), tasks, None))
  ∧ (convert_url (Some (Some text)) uuid tasks).1.2 = tasks
  ∧ (convert_url (Some (Some text)) uuid tasks).2 = None.
Proof.
  intros Hnone. unfold convert_url. rewrite Hnone. simpl.
  destruct (strip text); split_and!; done.
Qed.

Lemma convert_url_without_urls_witness :
  convert_url (Some (Some (lit "nothing to convert here."))) (lit "id-1") ∅
  = (Submitted [] 0 [] (lit "nothing to convert here."), ∅, None).
Proof.
  apply (convert_url_without_urls (lit "nothing to convert here.")
           (lit "id-1") ∅).
  - vm_compute; reflexivity.
  - vm_compute; discriminate.
Defined.

Lemma dom_update_task
    (task_id : str) (kwargs : task) (tasks : gmap str task) :
  dom (update_task task_id kwargs tasks) = {[task_id]} ∪ dom tasks.
Proof.
  unfold update_task. rewrite dom_alter_L.
  destruct (tasks !! task_id) eqn:Hl.
  - apply (elem_of_dom_2 (D := gset str)) in Hl. set_solver.
  - apply dom_insert_L.
Qed.

(** Where the store grows: [convert_url] adds at most the id it draws. *)
Lemma dom_convert_url (data : option (option str)) (uuid : str)
    (tasks : gmap str task) :
  dom (convert_url data uuid tasks).1.2 ⊆ {[uuid]} ∪ dom tasks.
Proof.
  unfold convert_url. repeat case_match; simpl; try set_solver.
  rewrite dom_update_task. set_solver.
Qed.

(** The entries of a task as [convert_url] creates it: the URLs as plain
    strings, nothing completed. *)
Lemma convert_url_creates (text uuid : str) (tasks : gmap str task) :
  extract_urls text ≠ [] → tasks !! uuid = None →
  (convert_url (Some (Some text)) uuid tasks).1.2 !! uuid
  = Some {| urls := Some (UrlStr <$> extract_urls text);
            total := Some (N.of_nat (length (extract_urls text)));
            completed := Some 0; converted_text := Some text |}.
Proof.
  intros Hne Hfresh. unfold convert_url.
  destruct (strip text) as [|c s] eqn:Hs.
  - by apply blank_has_no_urls in Hs.
  - destruct (extract_urls text) as [|u l] eqn:Hu; [done|].
    replace (N.of_nat (length (u :: l)) =? 0) with false
      by (symmetry; apply N.eqb_neq; simpl; lia).
    simpl. unfold update_task. rewrite Hfresh.
    rewrite lookup_alter_eq, lookup_insert_eq. done.
Qed.
End Submit.

(** ** Replacement in the text *)

Section Replace.

Lemma join_cons (sep p : str) (ps : list str) :
  ps ≠ [] → join sep (p :: ps) = p ++ sep ++ join sep ps.
Proof. by destruct ps. Qed.

Lemma replace_from_skip (old new : str) (s : str) :
  ∀ k, replace_from old new k s = replace_from old new O (drop k s).
Proof.
  induction s as [|c s IH]; intros [|k]; simpl; done.
Qed.

Lemma startswith_drop (p s : str) :
  startswith p s = true → s = p ++ drop (length p) s.
Proof.
  unfold startswith. destruct (strip_prefix p s) as [r|] eqn:Hp; [|done].
  intros _. apply strip_prefix_Some in Hp as ->.
  by rewrite drop_app_length.
Qed.

Lemma startswith_app_l (p a b : str) :
  startswith p a = true → startswith p (a ++ b) = true.
Proof.
  intros ->%startswith_drop. rewrite <- app_assoc. apply startswith_app.
Qed.

Lemma contains_nil_r (old : str) : old ≠ [] → contains old [] = false.
Proof. by destruct old. Qed.

Lemma replace_from_parts (old new : str) :
  old ≠ [] →
  ∀ n s, (length s ≤ n)%nat →
    ∃ parts, parts ≠ []
             ∧ s = join old parts
             ∧ replace_from old new O s = join new parts
             ∧ Forall (λ p, contains old p = false) parts.
Proof.
  intros Hold. induction n as [|n IH]; intros s Hn.
  - destruct s; [|simpl in Hn; lia]. exists [[]]. split_and!; try done.
    constructor; [by apply contains_nil_r | constructor].
  - destruct s as [|c s].
    { exists [[]]. split_and!; try done.
      constructor; [by apply contains_nil_r | constructor]. }
    cbn [replace_from]. destruct (startswith old (c :: s)) eqn:Hsw.
    + rewrite replace_from_skip.
      assert (drop (length old - 1) s = drop (length old) (c :: s)) as ->.
      { destruct old; [done|]. simpl. by rewrite Nat.sub_0_r. }
      apply startswith_drop in Hsw.
      destruct (IH (drop (length old) (c :: s)))
        as (parts & Hne & Hs & Hr & Hf).
      { rewrite length_drop. destruct old; [done|]. simpl in *. lia. }
      exists ([] :: parts). split_and!; try done.
      * rewrite join_cons, <- Hs by done. exact Hsw.
      * by rewrite join_cons, <- Hr by done.
      * constructor; [by apply contains_nil_r | done].
    + destruct (IH s) as (parts & Hne & Hs & Hr & Hf); [simpl in Hn; lia|].
      destruct parts as [|p ps]; [done|].
      exists ((c :: p) :: ps). split_and!; try done.
      * destruct ps; [by rewrite Hs|].
        rewrite join_cons in Hs by done. rewrite join_cons by done.
        by rewrite Hs.
      * destruct ps; [by rewrite Hr|].
        rewrite join_cons in Hr by done. rewrite join_cons by done.
        by rewrite Hr.
      * apply Forall_cons in Hf as [Hp Hps]. constructor; [|done].
        cbn [contains]. rewrite Hp, orb_false_r.
        destruct (startswith old (c :: p)) eqn:Hcp; [|done].
        rewrite <- Hsw, Hs. destruct ps as [|q ps]; [done|].
        rewrite join_cons by done. symmetry.
        by apply (startswith_app_l old (c :: p)).
Qed.

(** [text.replace(old, new)] for a non-empty [old]: the text is cut at
    occurrences of [old] into parts that hold no occurrence of [old], and
    the result is those same parts with [new] between them. *)
Lemma replace_every_occurrence (old new s : str) :
  old ≠ [] →
  ∃ parts, parts ≠ []
           ∧ s = join old parts
           ∧ replace old new s = join new parts
           ∧ Forall (λ p, contains old p = false) parts.
Proof.
  intros Hold.
  destruct (replace_from_parts old new Hold (length s) s (le_n _))
    as (parts & ? & ? & Hr & ?).
  exists parts. split_and!; try done.
  unfold replace. by destruct old.
Qed.
End Replace.

(** ** The background runner *)

Section Runner.
Lemma record_result_absent
    (task_id original oss st st_text new_text : str)
    (tasks : gmap str task) :
  tasks !! task_id = None →
  record_result task_id original oss st st_text new_text tasks
  = (tasks, Return ()).
Proof. intros Hnone. unfold record_result. rewrite Hnone. simpl. done. Qed.

Lemma record_result_dom
    (task_id original oss st st_text new_text : str)
    (tasks : gmap str task) :
  dom (record_result task_id original oss st st_text new_text tasks).1
  = dom tasks.
Proof.
  destruct (tasks !! task_id) as [t|] eqn:Hl.
  - assert (∀ t', dom (<[task_id := t']> tasks) = dom tasks) as Hdom.
    { intros t'. rewrite dom_insert_L.
      apply (elem_of_dom_2 (D := gset str)) in Hl. set_solver. }
    unfold record_result. rewrite Hl. simpl.
    repeat case_match; simpl; by rewrite ?Hdom.
  - by rewrite record_result_absent.
Qed.

(** The first entry of the list is a plain string: the scan of the entries
    stops there with an [AttributeError], before anything is assigned. *)
Lemma record_result_str_entry
    (task_id original oss st st_text new_text : str)
    (tasks : gmap str task) (t : task) (u : str) (l : list url_info) :
  tasks !! task_id = Some t → urls t = Some (UrlStr u :: l) →
  record_result task_id original oss st st_text new_text tasks
  = (tasks, Raise no_get).
Proof.
  intros Hl Hu. unfold record_result. rewrite Hl. simpl. by rewrite Hu.
Qed.

(** An update that completes on a stored task assigns the runner's current
    text to it. *)
Lemma record_result_writes_text
    (task_id original oss st st_text new_text : str)
    (tasks tasks' : gmap str task) (t : task) :
  tasks !! task_id = Some t →
  record_result task_id original oss st st_text new_text tasks
  = (tasks', Return ()) →
  converted_text <$> tasks' !! task_id = Some (Some new_text).
Proof.
  intros Hl. unfold record_result. rewrite Hl. simpl.
  repeat case_match; intros [= <-]; by rewrite lookup_insert_eq.
Qed.

Lemma run_conversion_step_dom
    (task_id : str) (loc : locals) (r : OSSClient.result)
    (tasks : gmap str task) :
  dom (run_conversion_step task_id loc r tasks).1.2 = dom tasks.
Proof.
  unfold run_conversion_step.
  match goal with
  | |- context [record_result ?a ?b ?c ?d ?e ?f ?g] =>
      pose proof (record_result_dom a b c d e f g) as Hd;
      destruct (record_result a b c d e f g) as [tasks' o]
  end.
  done.
Qed.

Lemma run_conversion_loop_dom
    (task_id : str) (results : list OSSClient.result) :
  ∀ loc (tasks : gmap str task),
    dom (run_conversion_loop task_id loc results tasks).1.2 = dom tasks.
Proof.
  induction results as [|r results IH]; intros loc tasks; simpl; [done|].
  pose proof (run_conversion_step_dom task_id loc r tasks) as Hd.
  destruct (run_conversion_step task_id loc r tasks)
    as [[loc' tasks'] [[]|e]]; simpl in *; [by rewrite IH | done].
Qed.

Lemma run_conversion_loop_absent
    (task_id : str) (results : list OSSClient.result) :
  ∀ loc (tasks : gmap str task),
    tasks !! task_id = None →
    (run_conversion_loop task_id loc results tasks).1.2 = tasks
    ∧ (run_conversion_loop task_id loc results tasks).2 = Return ().
Proof.
  induction results as [|r results IH]; intros loc tasks Hnone; simpl;
    [done|].
  unfold run_conversion_step. rewrite record_result_absent by done.
  by apply IH.
Qed.

(** C10. Folding a result in never changes the set of task ids of the
    store, whether the update completes or raises; so does a whole run of
    the runner. When the task id is not in the store, the update is made
    on a dictionary of its own, completes, and leaves the store exactly as
    it was: the result is dropped. *)
Theorem runner_never_adds_a_task
    (task_id text : str) (loc : locals) (result : OSSClient.result)
    (results : list OSSClient.result) (tasks : gmap str task) :
  dom (run_conversion_step task_id loc result tasks).1.2 = dom tasks
  ∧ dom (run_conversion task_id text results tasks).1 = dom tasks
  ∧ (tasks !! task_id = None →
       (run_conversion_step task_id loc result tasks).1.2 = tasks
       ∧ (run_conversion_step task_id loc result tasks).2 = Return ()
       ∧ run_conversion task_id text results tasks = (tasks, Return ())).
Proof.
  split_and!.
  - apply run_conversion_step_dom.
  - unfold run_conversion.
    pose proof (run_conversion_loop_dom task_id results
                  {| l_converted_text := text; url_mapping := ∅ |} tasks).
    by destruct (run_conversion_loop _ _ _ _) as [[??]?].
  - intros Hnone. unfold run_conversion_step, run_conversion.
    rewrite record_result_absent by done. simpl.
    destruct (run_conversion_loop_absent task_id results
                {| l_converted_text := text; url_mapping := ∅ |} tasks Hnone)
      as [H1 H2].
    destruct (run_conversion_loop _ _ _ _) as [[??]?]. simpl in *.
    by subst.
Qed.

Lemma runner_never_adds_a_task_witness :
  let result :=
    (OSSClient.process_single_url demo_client (lit "http://x.com/1.jpg")
       start).1 in
  run_conversion task_1 same_url_twice [result] ∅ = (∅, Return ()).
Proof.
  intros result.
  apply (runner_never_adds_a_task task_1 same_url_twice
           {| l_converted_text := same_url_twice; url_mapping := ∅ |}
           result [result] ∅).
  apply lookup_empty.
Defined.

Lemma update_url_info_found (original oss st st_text : str)
    (l l' : list url_info) :
  update_url_info original oss st st_text l = Return (Some l') →
  UrlDict {| original_url := original; oss_url := oss; status := st;
             status_text := st_text |} ∈ l'.
Proof.
  revert l'. induction l as [|[u|r] l IH]; intros l'; simpl; try done.
  destruct (decide (original_url r = original)) as [<-|Hne].
  - intros [= <-]. apply list_elem_of_here.
  - destruct (update_url_info original oss st st_text l) as [[l''|]|e];
      try done.
    intros [= <-]. apply list_elem_of_further. by apply IH.
Qed.

(** C9, as stated, fails on the texts: the runner maps the statuses to its
    own strings, not to the English ones. *)
Lemma status_text_is_not_the_english_text :
  status_text_of (lit "success") ≠ lit "converted"
  ∧ status_text_of (lit "failed") ≠ lit "conversion failed"
  ∧ status_text_of (lit "skipped") ≠ lit "already a storage URL".
Proof. split_and!; vm_compute; discriminate. Qed.

(** C9, amended. The runner maps [success] to [转换成功] (converted),
    [failed] to [转换失败] (conversion failed) and [skipped] to
    [已是 OSS 地址] (already an OSS address). Whenever folding a result
    into a stored task completes, the task holds an entry for the URL of
    the result with the converted URL, the status and that status text. *)
Theorem status_text_recorded :
  status_text_of (lit "success") = lit "转换成功"
  ∧ status_text_of (lit "failed") = lit "转换失败"
  ∧ status_text_of (lit "skipped") = lit "已是 OSS 地址"
  ∧ ∀ (task_id : str) (loc loc' : locals) (result : OSSClient.result)
      (tasks tasks' : gmap str task) (t : task),
      tasks !! task_id = Some t →
      run_conversion_step task_id loc result tasks
      = (loc', tasks', Return ()) →
      ∃ t', tasks' !! task_id = Some t'
            ∧ UrlDict {| original_url := OSSClient.original result;
                         oss_url := OSSClient.converted result;
                         status := OSSClient.status result;
                         status_text :=
                           status_text_of (OSSClient.status result) |}
              ∈ default [] (urls t').
Proof.
  split_and!; try (vm_compute; reflexivity).
  intros task_id loc loc' result tasks tasks' t Hl.
  unfold run_conversion_step, record_result. rewrite Hl. simpl.
  destruct (update_url_info _ _ _ _ _) as [[l'|]|e] eqn:Hu; simpl;
    [| |by intros [=]].
  - destruct (count_completed l'); intros [= _ <-].
    eexists. split; [apply lookup_insert_eq|]. simpl.
    by eapply update_url_info_found.
  - destruct (count_completed _); intros [= _ <-].
    eexists. split; [apply lookup_insert_eq|]. simpl.
    apply elem_of_app. right. apply list_elem_of_here.
Qed.

Lemma status_text_recorded_witness :
  let result :=
    (OSSClient.process_single_url demo_client (lit "http://x.com/1.jpg")
       start).1 in
  ∃ t', (run_conversion_step task_1
           {| l_converted_text := same_url_twice; url_mapping := ∅ |}
           result store_with_empty_task).1.2 !! task_1 = Some t'
        ∧ UrlDict {| original_url := lit "http://x.com/1.jpg";
                     oss_url := OSSClient.converted result;
                     status := lit "success";
                     status_text := lit "转换成功" |}
          ∈ default [] (urls t').
Proof.
  intros result.
  destruct status_text_recorded as (_ & _ & _ & H).
  destruct (run_conversion_step task_1
              {| l_converted_text := same_url_twice; url_mapping := ∅ |}
              result store_with_empty_task) as [[loc' tasks'] o] eqn:Hs.
  assert (o = Return ()) as -> by (by vm_compute in Hs; simplify_eq).
  eapply (H task_1 _ loc' result store_with_empty_task tasks');
    [vm_compute; reflexivity | exact Hs].
Defined.

(** The runner started by [convert_url] stops at its first result: the
    entries stored at creation are plain strings, and the scan for the
    entry of the result raises on the first of them. The store stays as
    [convert_url] left it. *)
Lemma runner_stops_at_first_result
    (text uuid : str) (tasks : gmap str task) (r : OSSClient.result)
    (results : list OSSClient.result) :
  OSSClient.extract_urls text ≠ [] → tasks !! uuid = None →
  let created := (convert_url (Some (Some text)) uuid tasks).1.2 in
  run_conversion uuid text (r :: results) created = (created, Raise no_get).
Proof.
  intros Hne Hfresh created.
  pose proof (convert_url_creates text uuid tasks Hne Hfresh) as Hl.
  fold created in Hl.
  destruct (OSSClient.extract_urls text) as [|u l]; [done|].
  unfold run_conversion. cbn [run_conversion_loop].
  unfold run_conversion_step.
  erewrite record_result_str_entry; [done | exact Hl | done].
Qed.

(** C1, on the code as it is: a text with the same URL twice is submitted
    and the URL converts with success. The runner computes the text with
    both occurrences replaced, but raises before it assigns it: the
    [converted_text] of the task is still the submitted text. *)
Theorem successful_conversion_is_not_written_back :
  let submitted := convert_url (Some (Some same_url_twice)) task_1 ∅ in
  let tasks := submitted.1.2 in
  let results :=
    OSSClient.convert_urls_streaming (worker demo_client) in_order
      same_url_twice in
  let oss := lit "http://nas2net.cn:4003/OSS_Buckets/tmpk3x9_3f9c1a70.jpg" in
  submitted.2 = Some (task_1, same_url_twice)
  ∧ results = [ {| OSSClient.original := lit "http://x.com/1.jpg";
                   OSSClient.converted := oss;
                   OSSClient.status := lit "success";
                   OSSClient.message := None; OSSClient.error := None |} ]
  ∧ replace (lit "http://x.com/1.jpg") oss same_url_twice
    = lit "a " ++ oss ++ lit " b " ++ oss ++ lit " c"
  ∧ run_conversion task_1 same_url_twice results tasks
    = (tasks, Raise no_get)
  ∧ converted_text <$> tasks !! task_1 = Some (Some same_url_twice).
Proof. vm_compute. split_and!; reflexivity. Qed.

(** C2, on the code as it is: the entries a task is created with are plain
    strings without any status, and the runner raises on the first result
    it folds in. No entry ever gets a terminal status and [completed] stays
    at 0, below [total], after the runner has ended. *)
Theorem url_entries_never_become_terminal :
  let tasks := (convert_url (Some (Some two_urls)) task_1 ∅).1.2 in
  let results :=
    OSSClient.convert_urls_streaming (worker demo_client) in_order two_urls in
  tasks !! task_1
  = Some {| urls := Some [UrlStr (lit "http://x.com/1.jpg");
                          UrlStr (lit "http://y.org/doc.pdf")];
            total := Some 2; completed := Some 0;
            converted_text := Some two_urls |}
  ∧ length results = 2%nat
  ∧ run_conversion task_1 two_urls results tasks = (tasks, Raise no_get)
  ∧ get_progress task_1 (run_conversion task_1 two_urls results tasks).1
    = Progress task_1 2 0 two_urls
        [UrlStr (lit "http://x.com/1.jpg");
         UrlStr (lit "http://y.org/doc.pdf")].
Proof. vm_compute. split_and!; reflexivity. Qed.
End Runner.

(** * Further properties of the code *)

(** ** More on URL extraction *)

Section ExtractMore.
Import OSSClient.

Lemma span_Forall (p : char → bool) (s run rest : str) :
  span p s = (run, rest) → Forall (λ c, p c = true) run.
Proof.
  revert run. induction s as [|c s IH]; intros run; simpl.
  - intros [= <- <-]. constructor.
  - destruct (p c) eqn:Hc; [|intros [= <- <-]; constructor].
    destruct (span p s) as [run' rest'] eqn:Hs. intros [= <- <-].
    constructor; [done | by apply IH].
Qed.

(** A match at the start of [s] is a prefix of [s]: a scheme, [://] and a
    non-empty run of class characters that stops at the end of [s] or at a
    character outside the class. *)
Lemma match_url_inv (s m : str) :
  match_url s = Some m →
  ∃ scheme body rest,
    (scheme = lit "http" ∨ scheme = lit "https")
    ∧ m = scheme ++ lit "://" ++ body ∧ s = m ++ rest
    ∧ body ≠ [] ∧ Forall (λ c, url_char c = true) body.
Proof.
  unfold match_url.
  destruct (strip_prefix (lit "http") s) as [r|] eqn:Hp; [|done].
  apply strip_prefix_Some in Hp as ->.
  assert (∀ t, (lit "http" ++.) <$> match_after_scheme t = Some m →
               ∃ body rest, m = lit "http" ++ lit "://" ++ body
                            ∧ lit "http" ++ t = m ++ rest ∧ body ≠ []
                            ∧ Forall (λ c, url_char c = true) body) as Hhttp.
  { intros t Ht. destruct (match_after_scheme t) as [m'|] eqn:Hm; [|done].
    apply match_after_scheme_Some in Hm as (run & rest & -> & Hne & Hs & ->).
    change (Some (lit "http" ++ lit "://" ++ run) = Some m) in Ht.
    apply (inj Some) in Ht as <-.
    exists run, rest. split_and!; try done. by eapply span_Forall. }
  assert (∀ t, (lit "http" ++.) <$> match_after_scheme t = Some m →
               ∃ scheme body rest,
                 (scheme = lit "http" ∨ scheme = lit "https")
                 ∧ m = scheme ++ lit "://" ++ body
                 ∧ lit "http" ++ t = m ++ rest ∧ body ≠ []
                 ∧ Forall (λ c, url_char c = true) body) as Hhttp'.
  { intros t (body & rest & ? & ? & ? & ?)%Hhttp.
    exists (lit "http"), body, rest. split_and!; auto. }
  destruct r as [|c r']; [apply Hhttp'|].
  destruct (c =? 115) eqn:Hc; [|apply Hhttp'].
  apply N.eqb_eq in Hc as ->.
  destruct (match_after_scheme r') as [m'|] eqn:Hm; [|apply Hhttp'].
  intros <-%(inj Some).
  apply match_after_scheme_Some in Hm as (run & rest & -> & Hne & Hs & ->).
  exists (lit "https"), run, rest. split_and!; auto.
  by eapply span_Forall.
Qed.

Lemma findall_from_occurs (s : str) :
  ∀ skip u, u ∈ findall_from skip s → ∃ pre post, s = pre ++ u ++ post.
Proof.
  induction s as [|c s IH]; intros skip u; simpl; [by intros ?%elem_of_nil|].
  assert (∀ k, u ∈ findall_from k s → ∃ pre post, c :: s = pre ++ u ++ post)
    as Hlater.
  { intros k (pre & post & ->)%IH. by exists (c :: pre), post. }
  destruct skip as [|k]; [|apply Hlater].
  destruct (match_url (c :: s)) as [m|] eqn:Hm; [|apply Hlater].
  intros [->|Hu]%elem_of_cons; [|by eapply Hlater].
  apply match_url_inv in Hm as (_ & _ & rest & _ & _ & Hs & _).
  by exists [], rest.
Qed.

Lemma elem_of_extract_urls (text u : str) :
  u ∈ extract_urls text ↔ u ∈ findall text.
Proof.
  unfold extract_urls.
  destruct (extract_step_fold (findall text) ∅ [])
    as (_ & Hin & _); [set_solver | constructor |].
  rewrite Hin. set_solver.
Qed.

(** X1. Every URL [extract_urls] returns occurs in the text as it stands:
    the text is some prefix, the URL, and some suffix. *)
Theorem extracted_urls_occur_in_text (text u : str) :
  u ∈ extract_urls text → ∃ pre post, text = pre ++ u ++ post.
Proof.
  intros Hu%elem_of_extract_urls. by eapply findall_from_occurs.
Qed.

Lemma extracted_urls_occur_in_text_witness :
  ∃ pre post, visit_twice = pre ++ lit "http://a.com" ++ post.
Proof.
  apply (extracted_urls_occur_in_text visit_twice (lit "http://a.com")).
  vm_compute. apply list_elem_of_here.
Defined.

(** X2. Every URL [extract_urls] returns is [http://] or [https://] followed
    by at least one character, and none of the characters after the scheme
    is white space, an angle bracket, a quote, a closing parenthesis or a
    closing square bracket. *)
Theorem extracted_urls_are_well_formed (text u : str) :
  u ∈ extract_urls text →
  ∃ body, (u = lit "http://" ++ body ∨ u = lit "https://" ++ body)
          ∧ body ≠ []
          ∧ Forall (λ c, is_space c = false
                         ∧ c ∉ [60; 62; 34; 39; 41; 93]) body.
Proof.
  intros Hu%elem_of_extract_urls.
  apply findall_from_matches in Hu as [s Hs].
  apply match_url_inv in Hs as (scheme & body & rest & Hsch & -> & _ & ? & Hb).
  exists body. split_and!; [|done|].
  - destruct Hsch as [-> | ->]; rewrite app_assoc.
    + left. by rewrite http_colon.
    + right. by rewrite https_colon.
  - eapply Forall_impl; [exact Hb|]. intros c Hc. unfold url_char in Hc.
    apply negb_true_iff, orb_false_iff in Hc as [? Hc].
    split; [done|]. by apply bool_decide_eq_false in Hc.
Qed.

Lemma extracted_urls_are_well_formed_witness :
  ∃ body, (lit "https://a.b/c?d=1." = lit "http://" ++ body
           ∨ lit "https://a.b/c?d=1." = lit "https://" ++ body)
          ∧ body ≠ []
          ∧ Forall (λ c, is_space c = false
                         ∧ c ∉ [60; 62; 34; 39; 41; 93]) body.
Proof.
  apply (extracted_urls_are_well_formed
           (lit "(see http://q.r/s) and https://a.b/c?d=1. <http://z>")).
  vm_compute. apply list_elem_of_further, list_elem_of_here.
Defined.

Lemma strip_prefix_app_stop (p s b : str) (c : char) :
  c ∉ p →
  strip_prefix p (s ++ c :: b) = ((λ r, r ++ c :: b) <$> strip_prefix p s).
Proof.
  revert s. induction p as [|a p IH]; intros s Hc; [done|].
  apply not_elem_of_cons in Hc as [Hca Hcp].
  destruct s as [|x s]; simpl.
  - destruct (a =? c) eqn:E; [|done]. by apply N.eqb_eq in E.
  - destruct (a =? x); [by apply IH | done].
Qed.

Lemma span_app_stop (p : char → bool) (s b : str) (c : char) :
  p c = false →
  span p (s ++ c :: b) = ((span p s).1, (span p s).2 ++ c :: b).
Proof.
  intros Hc. induction s as [|x s IH]; simpl; [by rewrite Hc|].
  destruct (p x); [|done]. rewrite IH. by destruct (span p s).
Qed.

Lemma not_url_char_literals (c : char) :
  url_char c = false →
  (c ∉ lit "http") ∧ (c ∉ lit "://") ∧ (c =? 115) = false.
Proof.
  intros Hc.
  assert (∀ d, url_char d = true → c ≠ d) as Hne by (intros d Hd ->; congruence).
  split_and!.
  - change (lit "http") with [104; 116; 116; 112].
    rewrite !not_elem_of_cons. split_and!; try apply Hne; try done.
    apply not_elem_of_nil.
  - change (lit "://") with [58; 47; 47].
    rewrite !not_elem_of_cons. split_and!; try apply Hne; try done.
    apply not_elem_of_nil.
  - apply N.eqb_neq, Hne. done.
Qed.

Lemma match_after_scheme_app_stop (s b : str) (c : char) :
  url_char c = false →
  match_after_scheme (s ++ c :: b) = match_after_scheme s.
Proof.
  intros Hc. destruct (not_url_char_literals c Hc) as (_ & Hcolon & _).
  unfold match_after_scheme. rewrite strip_prefix_app_stop by done.
  destruct (strip_prefix (lit "://") s) as [body|]; [|done]. simpl.
  pose proof (span_app_stop url_char body b c Hc) as Hs.
  destruct (span url_char body) as [run rest] eqn:Hbody. simpl in Hs.
  rewrite Hs. destruct run; [done|].
  by rewrite (dot_groups_after_run _ _ _ _ Hs),
    (dot_groups_after_run _ _ _ _ Hbody).
Qed.

Lemma match_url_app_stop (s b : str) (c : char) :
  url_char c = false → match_url (s ++ c :: b) = match_url s.
Proof.
  intros Hc. destruct (not_url_char_literals c Hc) as (Hhttp & _ & Hs).
  unfold match_url. rewrite strip_prefix_app_stop by done.
  destruct (strip_prefix (lit "http") s) as [[|x r]|]; simpl; [| |done].
  - rewrite Hs.
    pose proof (match_after_scheme_app_stop [] b c Hc) as H0.
    cbn [app] in H0. by rewrite H0.
  - pose proof (match_after_scheme_app_stop (x :: r) b c Hc) as H1.
    cbn [app] in H1. rewrite H1.
    by rewrite (match_after_scheme_app_stop r b c Hc).
Qed.

Lemma findall_from_app_stop (b : str) (c : char) :
  url_char c = false →
  ∀ (a : str) (k : nat), (k ≤ length a)%nat →
    findall_from k (a ++ c :: b) = findall_from k a ++ findall b.
Proof.
  intros Hc. induction a as [|x a IH]; intros k Hk.
  - destruct k; [|simpl in Hk; lia]. cbn [app findall_from].
    pose proof (match_url_app_stop [] b c Hc) as H0.
    cbn [app] in H0. by rewrite H0.
  - cbn [app findall_from]. destruct k as [|k].
    + change (x :: a ++ c :: b) with ((x :: a) ++ c :: b).
      rewrite (match_url_app_stop (x :: a) b c Hc).
      destruct (match_url (x :: a)) as [m|] eqn:Hm.
      * apply match_url_inv in Hm as (_ & _ & rest & _ & _ & Hs & _).
        apply (f_equal length) in Hs. rewrite length_app in Hs.
        simpl in Hs. simpl. f_equal. apply IH. lia.
      * apply IH. lia.
    + apply IH. simpl in Hk. lia.
Qed.

Lemma extract_step_state (l : list str) :
  ∀ (seen : gset str) (acc : list str),
    (∀ x, x ∈ seen ↔ x ∈ acc) → NoDup acc →
    (∀ x, x ∈ (foldl extract_step (seen, acc) l).1
          ↔ x ∈ (foldl extract_step (seen, acc) l).2)
    ∧ NoDup (foldl extract_step (seen, acc) l).2.
Proof.
  induction l as [|u l IH]; intros seen acc Hseen Hnd; [done|]. simpl.
  destruct (decide (u ∈ seen)) as [Hin|Hnin]; [by apply IH|].
  apply IH.
  - intros y. rewrite elem_of_union, elem_of_singleton, elem_of_app,
      list_elem_of_singleton, Hseen. tauto.
  - apply NoDup_app. split; [done|]. split; [|apply NoDup_singleton].
    intros y Hy ->%list_elem_of_singleton. by apply Hnin, Hseen.
Qed.

(** X3. A character that cannot be part of a URL (white space, an angle
    bracket, a quote, a closing parenthesis or square bracket) separates the
    text for extraction: the URLs of the part before it come first and
    unchanged, and the URLs of the whole text are those of the two parts. *)
Theorem extract_urls_across_a_delimiter (a b : str) (c : char) :
  url_char c = false →
  extract_urls a `prefix_of` extract_urls (a ++ c :: b)
  ∧ ∀ u, u ∈ extract_urls (a ++ c :: b)
         ↔ u ∈ extract_urls a ∨ u ∈ extract_urls b.
Proof.
  intros Hc.
  assert (extract_urls (a ++ c :: b)
          = (foldl extract_step (foldl extract_step (∅, []) (findall a))
               (findall b)).2) as ->.
  { unfold extract_urls, findall.
    by rewrite (findall_from_app_stop b c Hc a 0), foldl_app by lia. }
  destruct (extract_step_state (findall a) ∅ []) as [Hseen Hnd];
    [set_solver | constructor |].
  unfold extract_urls at 1 2.
  destruct (foldl extract_step (∅, []) (findall a)) as [seen acc].
  simpl in Hseen, Hnd.
  destruct (extract_step_fold (findall b) seen acc Hseen Hnd)
    as (_ & Hin & Hpre & _).
  split; [exact Hpre|].
  intros u. rewrite Hin, (elem_of_extract_urls b). done.
Qed.

Lemma extract_urls_across_a_delimiter_witness :
  extract_urls (lit "see http://a.com/x")
    `prefix_of` extract_urls (lit "see http://a.com/x" ++ 32 :: lit "and more").
Proof.
  apply (extract_urls_across_a_delimiter (lit "see http://a.com/x")
           (lit "and more") 32).
  vm_compute. reflexivity.
Defined.
End ExtractMore.

(** ** More on the per-URL worker and the uploader *)

Section WorkerMore.
Import OSSClient.

Ltac unfold_monad :=
  unfold mbind, M_bind, mret, M_ret, log, uuid4_hex8 in *.

(** What [put_object] leaves in the world: the upload call, then the
    presign call when the upload returned. *)
Lemma put_object_world self key w :
  ∃ extra, calls (put_object self key w).2 = calls w ++ extra
           ∧ uuids_drawn (put_object self key w).2 = uuids_drawn w
           ∧ (extra = [Upload (bucket_name self) key]
              ∨ extra = [Upload (bucket_name self) key;
                         Presign (bucket_name self) key]).
Proof.
  unfold put_object. unfold_monad. simpl.
  destruct (s3_upload self _ _); simpl.
  - eexists. split_and!; [done | done | by left].
  - destruct (generate_presigned_url self _ _ _); simpl;
      rewrite <- app_assoc; eexists; split_and!; try done; by right.
Qed.

Lemma extract_filename_world self url (headers : str → option str) w :
  calls (_extract_filename self url headers w).2 = calls w
  ∧ (uuids_drawn w ≤ uuids_drawn (_extract_filename self url headers w).2
     ≤ S (uuids_drawn w))%nat.
Proof.
  unfold _extract_filename. unfold_monad.
  repeat case_match; simpl; split; try done; lia.
Qed.

(** X4. The result of the worker always names the URL it was given. It is
    [skipped] (for a URL that contains the endpoint), [failed] with an error
    message, or [success] with the URL the upload returned; unless it is
    [success], the converted URL is the original one. *)
Theorem process_single_url_result self url w :
  let r := (process_single_url self url w).1 in
  original r = url
  ∧ ((status r = lit "skipped" ∧ converted r = url
      ∧ contains (endpoint self) url = true)
     ∨ (status r = lit "failed" ∧ converted r = url ∧ is_Some (error r)
        ∧ contains (endpoint self) url = false)
     ∨ (status r = lit "success" ∧ contains (endpoint self) url = false
        ∧ ∃ key, (download_and_upload self url w).1
                 = Uploaded (converted r) key)).
Proof.
  unfold process_single_url.
  destruct (contains (endpoint self) url) eqn:Hc; simpl.
  - split; [done|]. by left.
  - unfold_monad.
    destruct (download_and_upload self url w) as [[u k|e o] w']; simpl.
    + split; [done|]. right. right. eauto.
    + split; [done|]. right. left. eauto.
Qed.

Lemma process_single_url_world self url w :
  (process_single_url self url w).2
  = if contains (endpoint self) url then w
    else (download_and_upload self url w).2.
Proof.
  unfold process_single_url. destruct (contains (endpoint self) url); [done|].
  unfold_monad. by destruct (download_and_upload self url w).
Qed.

Lemma download_and_upload_world self url w :
  let w' := (download_and_upload self url w).2 in
  (uuids_drawn w ≤ uuids_drawn w' ≤ uuids_drawn w + 2)%nat
  ∧ ∃ later, calls w' = calls w ++ Fetch url :: later
             ∧ (later = []
                ∨ ∃ key, later = [Upload (bucket_name self) key]
                         ∨ later = [Upload (bucket_name self) key;
                                    Presign (bucket_name self) key]).
Proof.
  assert (∀ w1 : world,
            calls w1 = calls w ++ [Fetch url] →
            (uuids_drawn w ≤ uuids_drawn w1 ≤ uuids_drawn w + 2)%nat →
            (uuids_drawn w ≤ uuids_drawn w1 ≤ uuids_drawn w + 2)%nat
            ∧ ∃ later, calls w1 = calls w ++ Fetch url :: later
                       ∧ (later = []
                          ∨ ∃ key, later = [Upload (bucket_name self) key]
                                   ∨ later = [Upload (bucket_name self) key;
                                              Presign (bucket_name self) key]))
    as Hstop.
  { intros w1 Hc ?. split; [done|]. exists []. split; [done | by left]. }
  unfold download_and_upload. unfold_monad. simpl.
  destruct (requests_get self url) as [resp|e]; [|apply Hstop; simpl; [done|lia]].
  destruct (raise_for_status resp); [apply Hstop; simpl; [done|lia]|].
  pose proof (extract_filename_world self url (headers resp)
                {| calls := calls w ++ [Fetch url];
                   uuids_drawn := uuids_drawn w |}) as [Hc1 Hu1].
  unfold_monad.
  destruct (_extract_filename self url (headers resp) _) as [fn w1].
  simpl in Hc1, Hu1.
  destruct (iter_content resp); [|apply Hstop; simpl; [done|lia]].
  unfold upload_file.
  destruct (path_exists self _); simpl; [|apply Hstop; simpl; [done|lia]].
  unfold_monad.
  match goal with
  | |- context [put_object self ?key ?w0] =>
      destruct (put_object_world self key w0) as (extra & Hc2 & Hu2 & He);
      destruct (put_object self key w0) as [res' w2]; simpl in *;
      split; [lia|]; exists extra;
      rewrite Hc2, Hc1, <- app_assoc; split; [done|]; right; exists key;
      exact He
  end.
Qed.

(** X5. One run of the worker makes at most one fetch, and at most one
    upload, which comes after the fetch and is followed by at most one
    request for a presigned URL of the same key. It adds its calls after
    those already made and draws at most two UUIDs. *)
Theorem process_single_url_call_budget self url w :
  let w' := (process_single_url self url w).2 in
  (uuids_drawn w ≤ uuids_drawn w' ≤ uuids_drawn w + 2)%nat
  ∧ ∃ extra, calls w' = calls w ++ extra
             ∧ (extra = [] ∨ extra = [Fetch url]
                ∨ ∃ key, extra = [Fetch url; Upload (bucket_name self) key]
                         ∨ extra = [Fetch url; Upload (bucket_name self) key;
                                    Presign (bucket_name self) key]).
Proof.
  intros w'. subst w'. rewrite process_single_url_world.
  destruct (contains (endpoint self) url).
  { split; [lia|]. exists []. split; [by rewrite app_nil_r | by left]. }
  destruct (download_and_upload_world self url w)
    as (Hu & later & Hcalls & Hl).
  split; [done|]. exists (Fetch url :: later). split; [done|].
  destruct Hl as [->|[key [->| ->]]]; eauto 6.
Qed.

(** X6. When the download of a URL fails (the request raises, the status is
    an error, or the body cannot be read), the worker's result is [failed]
    with the exception's text, prefixed by [下载失败: ] (download failed)
    for a [RequestException]; the URL stays unconverted and nothing is
    uploaded: the fetch is the only call made. *)
Theorem failed_download_uploads_nothing self url w e :
  contains (endpoint self) url = false →
  (requests_get self url = Raise e
   ∨ ∃ resp, requests_get self url = Return resp
             ∧ (raise_for_status resp = Some e
                ∨ (raise_for_status resp = None
                   ∧ iter_content resp = Raise e))) →
  (process_single_url self url w).1
  = {| original := url; converted := url; status := lit "failed";
       message := None;
       error := Some (if decide (exn_cls e = RequestException)
                      then lit "下载失败: " ++ exn_str e
                      else exn_str e) |}
  ∧ calls (process_single_url self url w).2 = calls w ++ [Fetch url].
Proof.
  intros Hno Hfail. rewrite process_single_url_world.
  unfold process_single_url. rewrite Hno.
  assert (download_and_upload self url w
          = (download_failed url e, (download_and_upload self url w).2)
          ∧ calls (download_and_upload self url w).2 = calls w ++ [Fetch url])
    as [Hd Hc].
  { unfold download_and_upload. unfold_monad. simpl.
    destruct Hfail as [-> | (resp & -> & [-> | [-> Hbody]])]; [done | done |].
    pose proof (extract_filename_world self url (headers resp)
                  {| calls := calls w ++ [Fetch url];
                     uuids_drawn := uuids_drawn w |}) as [Hc1 _].
    unfold_monad.
    destruct (_extract_filename self url (headers resp) _) as [fn w1].
    by rewrite Hbody. }
  split; [|done]. unfold_monad. rewrite Hd. unfold download_failed.
  by case_decide.
Qed.

Lemma failed_download_uploads_nothing_witness :
  (process_single_url offline_client (lit "http://x.com/1.jpg") start).1
  = {| original := lit "http://x.com/1.jpg";
       converted := lit "http://x.com/1.jpg"; status := lit "failed";
       message := None;
       error := Some (lit "下载失败: connection timed out") |}
  ∧ calls (process_single_url offline_client (lit "http://x.com/1.jpg")
             start).2 = [Fetch (lit "http://x.com/1.jpg")].
Proof.
  apply (failed_download_uploads_nothing offline_client
           (lit "http://x.com/1.jpg") start
           (Exn RequestException (lit "connection timed out"))).
  - vm_compute. reflexivity.
  - left. reflexivity.
Defined.

(** X7. A successful [upload_file] means that the file exists, that the
    object was uploaded under the key returned, and that the URL returned is
    the one presigned for that same key; the upload and the presign request
    are the two calls made, in that order. A key passed by the caller is
    used as it is, without drawing a UUID. *)
Theorem uploaded_url_is_for_the_uploaded_key
    self file_path (object_key : option str) url key w w' :
  upload_file self file_path object_key w = (Uploaded url key, w') →
  path_exists self file_path = true
  ∧ s3_upload self (bucket_name self) key = None
  ∧ generate_presigned_url self (bucket_name self) key (url_expires self)
    = Return url
  ∧ calls w' = calls w ++ [Upload (bucket_name self) key;
                           Presign (bucket_name self) key]
  ∧ (∀ k, object_key = Some k → key = k ∧ uuids_drawn w' = uuids_drawn w).
Proof.
  unfold upload_file. destruct (path_exists self file_path); simpl;
    [|intros [=]].
  assert (∀ k w0, put_object self k w0 = (Uploaded url key, w') →
                  key = k
                  ∧ s3_upload self (bucket_name self) k = None
                  ∧ generate_presigned_url self (bucket_name self) k
                      (url_expires self) = Return url
                  ∧ calls w' = calls w0 ++ [Upload (bucket_name self) k;
                                            Presign (bucket_name self) k]
                  ∧ uuids_drawn w' = uuids_drawn w0) as Hput.
  { intros k w0. unfold put_object. unfold_monad. simpl.
    destruct (s3_upload self _ _); simpl; [case_decide; intros [=]|].
    destruct (generate_presigned_url self _ _ _); simpl;
      [|case_decide; intros [=]].
    intros [= -> -> <-]. simpl. by rewrite <- app_assoc. }
  destruct object_key as [k|]; unfold_monad; simpl.
  - intros (-> & ? & ? & ? & ?)%Hput. split_and!; try done.
    by intros ? [= ->].
  - intros (-> & ? & ? & ? & ?)%Hput. split_and!; try done.
Qed.

Lemma uploaded_url_is_for_the_uploaded_key_witness :
  generate_presigned_url demo_client (bucket_name demo_client)
    (lit "reports/2024.pdf") (url_expires demo_client)
  = Return (lit "http://nas2net.cn:4003/OSS_Buckets/reports/2024.pdf").
Proof.
  destruct (uploaded_url_is_for_the_uploaded_key demo_client
              (lit "/srv/files/2024.pdf") (Some (lit "reports/2024.pdf"))
              (lit "http://nas2net.cn:4003/OSS_Buckets/reports/2024.pdf")
              (lit "reports/2024.pdf") start
              (upload_file demo_client (lit "/srv/files/2024.pdf")
                 (Some (lit "reports/2024.pdf")) start).2)
    as (_ & _ & Hurl & _); [vm_compute; reflexivity|].
  exact Hurl.
Defined.

(** X8. When the storage refuses the upload, the worker's result for a URL
    that downloads well is [failed], with [密钥认证失败] (key authentication
    failed) for a [NoCredentialsError] whatever its own text, and with the
    exception's text otherwise. The URL stays unconverted and no presigned
    URL is requested. *)
Theorem refused_upload_fails_the_url self url w resp body e :
  contains (endpoint self) url = false →
  requests_get self url = Return resp →
  raise_for_status resp = None →
  iter_content resp = Return body →
  (∀ suffix, path_exists self (NamedTemporaryFile self suffix) = true) →
  (∀ key, s3_upload self (bucket_name self) key = Some e) →
  (process_single_url self url w).1
  = {| original := url; converted := url; status := lit "failed";
       message := None;
       error := Some (if decide (exn_cls e = NoCredentialsError)
                      then lit "密钥认证失败" else exn_str e) |}
  ∧ ∃ key, calls (process_single_url self url w).2
           = calls w ++ [Fetch url; Upload (bucket_name self) key].
Proof.
  intros Hno Hget Hst Hbody Hex Hs3. rewrite process_single_url_world.
  unfold process_single_url. rewrite Hno.
  unfold download_and_upload. unfold_monad. simpl. rewrite Hget, Hst.
  pose proof (extract_filename_world self url (headers resp)
                {| calls := calls w ++ [Fetch url];
                   uuids_drawn := uuids_drawn w |}) as [Hc1 _].
  unfold_monad.
  destruct (_extract_filename self url (headers resp) _) as [fn w1].
  simpl in Hc1. rewrite Hbody. unfold upload_file. rewrite Hex. simpl.
  unfold put_object. unfold_monad. simpl. rewrite Hs3. simpl.
  split.
  - by case_decide.
  - eexists. by rewrite Hc1, <- app_assoc.
Qed.

Lemma refused_upload_fails_the_url_witness :
  (process_single_url no_credentials_client (lit "http://x.com/1.jpg")
     start).1
  = {| original := lit "http://x.com/1.jpg";
       converted := lit "http://x.com/1.jpg"; status := lit "failed";
       message := None; error := Some (lit "密钥认证失败") |}.
Proof.
  eapply (refused_upload_fails_the_url no_credentials_client
            (lit "http://x.com/1.jpg") start _ []
            (Exn NoCredentialsError (lit "Unable to locate credentials")));
    try (vm_compute; reflexivity); intros; reflexivity.
Defined.

(** X9. [_extract_filename] never returns an empty name and never touches
    the network: it makes no call, and draws a UUID only to generate a
    name. *)
Theorem extract_filename_is_never_empty
    self url (headers : str → option str) w :
  (_extract_filename self url headers w).1 ≠ []
  ∧ calls (_extract_filename self url headers w).2 = calls w.
Proof.
  split; [|apply extract_filename_world].
  unfold _extract_filename. unfold_monad.
  match goal with
  | |- context [if contains ?a ?b then ?x else []] =>
      destruct (if contains a b then x else []) as [|c from_header];
      [|done]
  end.
  match goal with
  | |- context [bool_decide ?P && ?q] =>
      destruct (bool_decide P && q) eqn:Hseg
  end; simpl.
  - by apply andb_true_iff in Hseg as [?%bool_decide_eq_true _].
  - replace (lit "file_") with (102 :: lit "ile_") by (vm_compute; reflexivity).
    done.
Qed.
End WorkerMore.

(** ** The extension of the object key *)

Section Extension.
Import OSSClient.

Lemma rfind_from_shift (c : char) (s : str) :
  ∀ i, rfind_from c i s = ((λ j, (i + j)%nat) <$> rfind_from c O s).
Proof.
  induction s as [|d s IH]; intros i; [done|]. simpl.
  rewrite (IH (S i)), (IH 1%nat).
  destruct (rfind_from c O s) as [j|]; simpl.
  - f_equal. lia.
  - destruct (d =? c); simpl; [f_equal; lia | done].
Qed.

Lemma rfind_cons (c d : char) (s : str) :
  rfind c (d :: s)
  = match rfind c s with
    | Some j => Some (S j)
    | None => if d =? c then Some O else None
    end.
Proof.
  unfold rfind. simpl. rewrite rfind_from_shift.
  by destruct (rfind_from c O s).
Qed.

Lemma rfind_app (c : char) (a b : str) :
  rfind c (a ++ b)
  = match rfind c b with
    | Some j => Some (length a + j)%nat
    | None => rfind c a
    end.
Proof.
  induction a as [|d a IH]; simpl.
  - by destruct (rfind c b).
  - rewrite !rfind_cons, IH. by destruct (rfind c b).
Qed.

Lemma rfind_None (c : char) (s : str) : rfind c s = None ↔ c ∉ s.
Proof.
  induction s as [|d s IH]; [split; [intros _; apply not_elem_of_nil | done]|].
  rewrite rfind_cons, not_elem_of_cons, <- IH.
  destruct (rfind c s); [split; [done | intros [_ [=]]]|].
  destruct (d =? c) eqn:E.
  - apply N.eqb_eq in E as ->. split; [done | by intros [? _]].
  - apply N.eqb_neq in E. split; [by intros _ | done].
Qed.

(** The last occurrence: the character is there and not after. *)
Lemma rfind_Some (c : char) (s : str) (j : nat) :
  rfind c s = Some j →
  ∃ rest, drop j s = c :: rest ∧ (c ∉ rest) ∧ (j < length s)%nat.
Proof.
  revert j. induction s as [|d s IH]; intros j; [done|].
  rewrite rfind_cons. destruct (rfind c s) as [i|] eqn:Hs.
  - intros [= <-]. destruct (IH i eq_refl) as (rest & ? & ? & ?).
    exists rest. simpl. split_and!; [done | done | lia].
  - destruct (d =? c) eqn:E; [|done]. intros [= <-].
    apply N.eqb_eq in E as ->. exists s. simpl.
    split_and!; [done | by apply rfind_None | lia].
Qed.

Lemma forallb_dots_false (s : str) (c : char) (t : str) :
  c ≠ DOT → forallb (λ c, c =? DOT) (s ++ c :: t) = false.
Proof.
  intros Hc. rewrite forallb_app. simpl.
  apply N.eqb_neq in Hc. rewrite Hc. apply andb_false_r.
Qed.

(** What [splitext] does, read on its result: either the path is split at
    its last dot, which lies in the last component after a character that is
    not a dot, or the extension is empty. *)
Lemma splitext_cases (p : str) :
  (∃ d fi, rfind DOT p = Some d
           ∧ fi = match rfind SLASH p with Some i => S i | None => O end
           ∧ (fi ≤ d)%nat
           ∧ forallb (λ c, c =? DOT) (take (d - fi) (drop fi p)) = false
           ∧ splitext p = (take d p, drop d p))
  ∨ (splitext p = (p, [])
     ∧ ∀ d, rfind DOT p = Some d →
            let fi := match rfind SLASH p with Some i => S i | None => O end in
            ¬ (fi ≤ d)%nat
            ∨ forallb (λ c, c =? DOT) (take (d - fi) (drop fi p)) = true).
Proof.
  unfold splitext. destruct (rfind DOT p) as [d|]; [|right; by split].
  case_bool_decide as Hle; simpl.
  - destruct (forallb _ _) eqn:Hdots; simpl.
    + right. split; [done|]. intros ? [= <-]. by right.
    + left. eexists d, _. split_and!; [done | reflexivity | done | done | done].
  - right. split; [done|]. intros ? [= <-]. by left.
Qed.

(** X10. The object key keeps the extension of the filename: for a suffix
    without dot or slash, as the hex digits of a UUID are, [splitext] gives
    the same extension on the key as on the filename. *)
Theorem unique_key_keeps_the_extension (filename hex8 : str) :
  Forall (λ c, c ≠ DOT ∧ c ≠ SLASH) hex8 →
  (splitext (unique_key filename hex8)).2 = (splitext filename).2.
Proof.
  intros Hhex. rewrite unique_key_eq.
  change (lit "_" ++ hex8 ++ (splitext filename).2)
    with ((lit "_" ++ hex8) ++ (splitext filename).2).
  remember (lit "_" ++ hex8) as mid eqn:Hmiddef.
  assert ((DOT ∉ mid) ∧ (SLASH ∉ mid)) as [Hmd Hms].
  { rewrite Hmiddef. change (lit "_") with [95].
    split; apply not_elem_of_cons; (split; [done|]);
      intros Hin; by destruct (proj1 (Forall_forall _ _) Hhex _ Hin). }
  assert (∃ t, mid = 95 :: t) as [t Hmid] by (by exists hex8).
  clear Hmiddef.
  destruct (splitext_cases filename)
    as [(d & fi & Hd & Hfi & Hle & Hdots & Hsplit) | [Hsplit Hwhy]];
    rewrite Hsplit; simpl.
  - (* the filename has an extension *)
    destruct (rfind_Some _ _ _ Hd) as (ext' & Hext & Hlast & Hlt).
    assert (length (take d filename) = d) as Hlen
      by (rewrite length_take; lia).
    assert (SLASH ∉ drop d filename) as Hnoslash.
    { apply rfind_None.
      pose proof (rfind_app SLASH (take d filename) (drop d filename)) as Happ.
      rewrite take_drop in Happ.
      destruct (rfind SLASH (drop d filename)) as [j|] eqn:Hj; [|done].
      exfalso. rewrite Happ, Hlen in Hfi. lia. }
    assert (rfind SLASH (take d filename) = rfind SLASH filename) as Hslash.
    { pose proof (rfind_app SLASH (take d filename) (drop d filename)) as Happ.
      rewrite take_drop in Happ.
      apply rfind_None in Hnoslash. by rewrite Hnoslash in Happ. }
    set (key := take d filename ++ mid ++ drop d filename).
    assert (rfind DOT key = Some (d + length mid)%nat) as Hkd.
    { subst key. rewrite app_assoc, rfind_app, Hext, rfind_cons.
      apply rfind_None in Hlast. rewrite Hlast. simpl.
      rewrite length_app, Hlen. f_equal. lia. }
    assert (rfind SLASH key = rfind SLASH filename) as Hks.
    { subst key. rewrite rfind_app.
      replace (rfind SLASH (mid ++ drop d filename)) with (@None nat); [done|].
      symmetry. apply rfind_None. rewrite elem_of_app. tauto. }
    unfold splitext. rewrite Hkd, Hks, <- Hfi.
    assert (take (d + length mid - fi) (drop fi key)
            = drop fi (take d filename) ++ mid) as ->.
    { subst key. rewrite drop_app_le by lia.
      rewrite app_assoc.
      rewrite take_app_length'; [done|].
      rewrite length_app, length_drop. lia. }
    assert (forallb (λ c, c =? DOT) (drop fi (take d filename) ++ mid) = false)
      as -> by (rewrite Hmid; by apply forallb_dots_false).
    rewrite bool_decide_eq_true_2 by lia. cbn [negb andb snd].
    subst key. rewrite app_assoc.
    rewrite drop_app_length'; [done|]. rewrite length_app. lia.
  - (* no extension: the key has none either *)
    rewrite app_nil_r.
    assert (rfind DOT (filename ++ mid) = rfind DOT filename) as Hkd.
    { rewrite rfind_app. apply rfind_None in Hmd. by rewrite Hmd. }
    assert (rfind SLASH (filename ++ mid) = rfind SLASH filename) as Hks.
    { rewrite rfind_app. apply rfind_None in Hms. by rewrite Hms. }
    unfold splitext. rewrite Hkd, Hks.
    destruct (rfind DOT filename) as [d|] eqn:Hd; [|done].
    destruct (rfind_Some _ _ _ Hd) as (_ & _ & _ & Hlt).
    destruct (Hwhy d eq_refl) as [Hgt | Hdots].
    + by rewrite bool_decide_eq_false_2.
    + case_bool_decide as Hle; [|done]. simpl.
      rewrite drop_app_le by lia.
      rewrite take_app_le by (rewrite length_drop; lia).
      simpl in Hdots. by rewrite Hdots.
Qed.

Lemma unique_key_keeps_the_extension_witness :
  (splitext (unique_key (lit "photos/summer.2024.jpeg") (lit "3f9c1a70"))).2
  = lit ".jpeg".
Proof.
  rewrite (unique_key_keeps_the_extension (lit "photos/summer.2024.jpeg")
             (lit "3f9c1a70")).
  - vm_compute. reflexivity.
  - vm_compute. repeat (constructor; [split; discriminate|]). constructor.
Defined.
End Extension.

(** ** The synchronous conversion *)

Section InTextProps.
Import OSSClient.

Lemma process_single_url_terminal self url w :
  status (process_single_url self url w).1
  ∈ [lit "success"; lit "failed"; lit "skipped"].
Proof.
  unfold process_single_url. destruct (contains (endpoint self) url); simpl.
  - set_solver.
  - unfold mbind, M_bind, mret, M_ret.
    destruct (download_and_upload self url w) as [[u k|e o] w']; simpl;
      set_solver.
Qed.

Lemma foldl_collect (l : list result) :
  ∀ acc txt, (foldl InText.collect (acc, txt) l).1 = acc ++ l.
Proof.
  induction l as [|r l IH]; intros acc txt; simpl; [by rewrite app_nil_r|].
  by rewrite IH, <- app_assoc.
Qed.

Lemma foldl_collect_no_success (l : list result) :
  ∀ acc txt, InText.count_status (lit "success") l = 0%nat →
             (foldl InText.collect (acc, txt) l).2 = txt.
Proof.
  unfold InText.count_status.
  induction l as [|r l IH]; intros acc txt Hn; simpl; [done|].
  rewrite filter_cons in Hn. case_decide as Hs; [done|].
  by rewrite IH.
Qed.

Lemma count_three_statuses (l : list result) :
  Forall (λ r, status r ∈ [lit "success"; lit "failed"; lit "skipped"]) l →
  (InText.count_status (lit "success") l
   + InText.count_status (lit "failed") l
   + InText.count_status (lit "skipped") l = length l)%nat.
Proof.
  unfold InText.count_status. induction 1 as [|r l Hr Hl IH]; [done|].
  rewrite !filter_cons.
  assert (lit "success" ≠ lit "failed" ∧ lit "success" ≠ lit "skipped"
          ∧ lit "failed" ≠ lit "skipped") as (? & ? & ?)
    by (split_and!; vm_compute; discriminate).
  apply elem_of_cons in Hr as [Hr|Hr]; [|apply elem_of_cons in Hr as [Hr|Hr];
    [|apply list_elem_of_singleton in Hr]];
    rewrite Hr; repeat case_decide; try congruence; simpl; lia.
Qed.

(** X11. [convert_urls_in_text], run with workers that return what
    [process_single_url] returns or raise, reports one conversion per
    distinct URL of the text, and its three counters add up to that number.
    When nothing was converted with success the text comes back as it was
    submitted. *)
Theorem convert_urls_in_text_accounts_for_every_url
    self (future_result : str → outcome result) (order : completion_order)
    (text : str) :
  (∀ url r, future_result url = Return r →
            ∃ w, r = (process_single_url self url w).1) →
  let report := InText.convert_urls_in_text future_result order text in
  InText.original_text report = text
  ∧ InText.total_urls report = length (extract_urls text)
  ∧ InText.conversions report
    = convert_urls_streaming future_result order text
  ∧ length (InText.conversions report) = InText.total_urls report
  ∧ (InText.successful report + InText.failed report
     + InText.skipped report = InText.total_urls report)%nat
  ∧ (InText.successful report = 0%nat → InText.converted_text report = text).
Proof.
  intros Hworker report. subst report. unfold InText.convert_urls_in_text.
  set (stream := convert_urls_streaming future_result order text).
  pose proof (foldl_collect stream [] text) as Hconv.
  pose proof (foldl_collect_no_success stream [] text) as Htext.
  destruct (foldl InText.collect ([], text) stream) as [results txt].
  simpl in *. subst results.
  assert (length stream = length (extract_urls text)) as Hlen.
  { subst stream. unfold convert_urls_streaming. case_bool_decide as Hz.
    - by rewrite Hz.
    - rewrite length_fmap. apply Permutation_length, as_completed_perm. }
  assert (Forall (λ r, status r ∈ [lit "success"; lit "failed"; lit "skipped"])
            stream) as Hst.
  { subst stream. unfold convert_urls_streaming. case_bool_decide; [done|].
    apply Forall_fmap, Forall_forall. intros url _. simpl.
    destruct (future_result url) as [r|e] eqn:Hf; simpl.
    - destruct (Hworker url r Hf) as [w ->]. apply process_single_url_terminal.
    - set_solver. }
  split_and!; try done.
  by rewrite count_three_statuses.
Qed.

Lemma convert_urls_in_text_accounts_for_every_url_witness :
  let report :=
    InText.convert_urls_in_text (worker offline_client) reversed two_urls in
  (InText.successful report + InText.failed report
   + InText.skipped report = 2)%nat
  ∧ InText.converted_text report = two_urls.
Proof.
  intros report.
  destruct (convert_urls_in_text_accounts_for_every_url offline_client
              (worker offline_client) reversed two_urls)
    as (_ & Htotal & _ & _ & Hsum & Hsame).
  { intros url r [= <-]. by exists start. }
  fold report in Htotal, Hsum, Hsame. split.
  - rewrite Hsum, Htotal. vm_compute. reflexivity.
  - apply Hsame. vm_compute. reflexivity.
Defined.
End InTextProps.

(** ** More on the task store and the runner *)

Section StoreMore.

Lemma dict_update_keys (d kwargs : task) :
  has_all_keys d → has_all_keys (dict_update d kwargs).
Proof.
  intros (? & ? & ? & ?). unfold has_all_keys, dict_update. simpl.
  destruct (urls kwargs), (total kwargs), (completed kwargs),
    (converted_text kwargs); simpl; eauto.
Qed.

Lemma update_task_lookup (task_id : str) (kwargs : task)
    (tasks : gmap str task) :
  update_task task_id kwargs tasks !! task_id
  = Some (dict_update
            (default {| urls := Some []; total := Some 0; completed := Some 0;
                        converted_text := Some [] |} (tasks !! task_id))
            kwargs).
Proof.
  unfold update_task. destruct (tasks !! task_id) as [t|] eqn:Hl.
  - by rewrite lookup_alter_eq, Hl.
  - by rewrite lookup_alter_eq, lookup_insert_eq.
Qed.

Lemma update_task_lookup_ne (task_id other : str) (kwargs : task)
    (tasks : gmap str task) :
  other ≠ task_id → update_task task_id kwargs tasks !! other = tasks !! other.
Proof.
  intros Hne. unfold update_task. rewrite lookup_alter_ne by done.
  destruct (tasks !! task_id); [done|]. by rewrite lookup_insert_ne.
Qed.

Lemma update_task_well_keyed (task_id : str) (kwargs : task)
    (tasks : gmap str task) :
  well_keyed tasks → well_keyed (update_task task_id kwargs tasks).
Proof.
  intros Hwk id t. destruct (decide (id = task_id)) as [->|Hne].
  - rewrite update_task_lookup. intros [= <-]. apply dict_update_keys.
    destruct (tasks !! task_id) as [t0|] eqn:Hl; simpl; [by eapply Hwk|].
    unfold has_all_keys. simpl. eauto.
  - rewrite update_task_lookup_ne by done. apply Hwk.
Qed.

Lemma record_result_well_keyed
    (task_id original oss st st_text new_text : str)
    (tasks : gmap str task) :
  well_keyed tasks →
  well_keyed (record_result task_id original oss st st_text new_text tasks).1.
Proof.
  intros Hwk. unfold record_result.
  destruct (tasks !! task_id) as [t|] eqn:Hl; simpl.
  - destruct (Hwk _ _ Hl) as (Hu & Ht & Hc & Hx).
    assert (∀ t', has_all_keys t' → well_keyed (<[task_id := t']> tasks))
      as Hins.
    { intros t' Ht' id t''. destruct (decide (id = task_id)) as [->|Hne].
      - rewrite lookup_insert_eq. by intros [= <-].
      - rewrite lookup_insert_ne by done. apply Hwk. }
    repeat case_match; simpl; try done; apply Hins;
      unfold has_all_keys; simpl; eauto.
  - repeat case_match; simpl; done.
Qed.

(** X12. Every task in the store has its four keys [urls], [total],
    [completed] and [converted_text]: [update_task], [convert_url] and every
    step of the runner, whether it completes or raises, keep it so. *)
Theorem stored_tasks_keep_their_keys
    (tasks : gmap str task) (task_id uuid : str) (kwargs : task)
    (data : option (option str)) (loc : locals) (result : OSSClient.result) :
  well_keyed tasks →
  well_keyed (update_task task_id kwargs tasks)
  ∧ well_keyed (convert_url data uuid tasks).1.2
  ∧ well_keyed (run_conversion_step task_id loc result tasks).1.2.
Proof.
  intros Hwk. split_and!.
  - by apply update_task_well_keyed.
  - unfold convert_url. repeat case_match; simpl; try done.
    by apply update_task_well_keyed.
  - unfold run_conversion_step.
    match goal with
    | |- context [record_result ?a ?b ?c ?d ?e ?f ?g] =>
        pose proof (record_result_well_keyed a b c d e f g Hwk) as H;
        destruct (record_result a b c d e f g)
    end.
    done.
Qed.

Lemma stored_tasks_keep_their_keys_witness :
  well_keyed (convert_url (Some (Some two_urls)) task_1 ∅).1.2.
Proof.
  apply (stored_tasks_keep_their_keys ∅ task_1 task_1 empty_dict
           (Some (Some two_urls))
           {| l_converted_text := two_urls; url_mapping := ∅ |}
           (OSSClient.process_single_url demo_client two_urls start).1).
  intros id t Hl. by rewrite lookup_empty in Hl.
Defined.

(** X13. In a store whose tasks have their keys, polling answers 404
    exactly for the ids that are not in the store; for an id in the store it
    reports the task's own [total], [completed], [converted_text] and
    [urls]. *)
Theorem get_progress_404_iff_unknown (tasks : gmap str task) (task_id : str) :
  well_keyed tasks →
  (get_progress task_id tasks = Error404 (lit "任务不存在")
   ↔ tasks !! task_id = None)
  ∧ ∀ t, tasks !! task_id = Some t →
         ∃ l n c x, urls t = Some l ∧ total t = Some n
                    ∧ completed t = Some c ∧ converted_text t = Some x
                    ∧ get_progress task_id tasks = Progress task_id n c x l.
Proof.
  intros Hwk. unfold get_progress, get_task.
  destruct (tasks !! task_id) as [t|] eqn:Hl; simpl.
  - destruct (Hwk _ _ Hl) as ([l Hu] & [n Ht] & [c Hc] & [x Hx]).
    destruct t as [tu tt tc tx]. simpl in *. subst.
    split; [split; intros [=]|].
    intros ? [= <-]. exists l, n, c, x. by simpl.
  - split; [done|]. by intros ? [=].
Qed.

Lemma get_progress_404_iff_unknown_witness :
  get_progress (lit "no-such-task") store_with_empty_task
  = Error404 (lit "任务不存在").
Proof.
  apply (get_progress_404_iff_unknown store_with_empty_task
           (lit "no-such-task")).
  - apply (update_task_well_keyed task_1 empty_dict ∅).
    intros id t Hl. by rewrite lookup_empty in Hl.
  - vm_compute. reflexivity.
Defined.

(** X14. For a text with at least one URL and a task id not yet in the
    store, [convert_url] answers with the id, the number of distinct URLs
    and their list, starts the runner for that id and text, leaves the other
    tasks as they were, and a poll made at once reports that total, nothing
    completed, the submitted text and the URLs. *)
Theorem submitted_task_is_polled_as_created
    (text uuid : str) (tasks : gmap str task) :
  OSSClient.extract_urls text ≠ [] → tasks !! uuid = None →
  let urls := OSSClient.extract_urls text in
  let n := N.of_nat (length urls) in
  let tasks' := (convert_url (Some (Some text)) uuid tasks).1.2 in
  convert_url (Some (Some text)) uuid tasks
  = (Submitted uuid n urls text, tasks', Some (uuid, text))
  ∧ 0 < n
  ∧ get_progress uuid tasks' = Progress uuid n 0 text (UrlStr <$> urls)
  ∧ ∀ other, other ≠ uuid → tasks' !! other = tasks !! other.
Proof.
  intros Hne Hfresh urls n tasks'.
  pose proof (convert_url_creates text uuid tasks Hne Hfresh) as Hl.
  fold tasks' in Hl.
  assert (0 < n) as Hn.
  { subst n urls. destruct (OSSClient.extract_urls text); [done|]. simpl. lia. }
  split_and!; [| done | |].
  - subst tasks'. unfold convert_url.
    destruct (strip text) eqn:Hs; [by apply blank_has_no_urls in Hs|].
    fold urls. fold n.
    assert ((n =? 0) = false) as -> by (apply N.eqb_neq; lia). done.
  - unfold get_progress, get_task. by rewrite Hl.
  - intros other Hother. subst tasks'. unfold convert_url.
    destruct (strip text) eqn:Hs; [done|].
    fold urls. fold n. destruct (n =? 0); [done|]. simpl.
    by apply update_task_lookup_ne.
Qed.

Lemma submitted_task_is_polled_as_created_witness :
  get_progress task_1 (convert_url (Some (Some two_urls)) task_1 ∅).1.2
  = Progress task_1 2 0 two_urls
      [UrlStr (lit "http://x.com/1.jpg"); UrlStr (lit "http://y.org/doc.pdf")].
Proof.
  apply (submitted_task_is_polled_as_created two_urls task_1 ∅).
  - vm_compute. discriminate.
  - apply lookup_empty.
Defined.

(** X15. The runner of a task created by [convert_url] changes nothing a
    poll can see: whatever non-empty sequence of results it is given, it
    ends with an [AttributeError] and a poll after it reports what a poll
    before it reported, with nothing completed and the submitted text. *)
Theorem progress_never_advances
    (text uuid : str) (tasks : gmap str task)
    (results : list OSSClient.result) :
  OSSClient.extract_urls text ≠ [] → tasks !! uuid = None → results ≠ [] →
  let created := (convert_url (Some (Some text)) uuid tasks).1.2 in
  let after := (run_conversion uuid text results created).1 in
  (run_conversion uuid text results created).2 = Raise no_get
  ∧ get_progress uuid after = get_progress uuid created
  ∧ get_progress uuid after
    = Progress uuid (N.of_nat (length (OSSClient.extract_urls text))) 0 text
        (UrlStr <$> OSSClient.extract_urls text).
Proof.
  intros Hne Hfresh Hres created after.
  destruct results as [|r results]; [done|].
  pose proof (runner_stops_at_first_result text uuid tasks r results
                Hne Hfresh) as Hrun.
  fold created in Hrun. subst after. rewrite Hrun. simpl.
  split_and!; [done | done |].
  pose proof (convert_url_creates text uuid tasks Hne Hfresh) as Hl.
  fold created in Hl. unfold get_progress, get_task. by rewrite Hl.
Qed.

Lemma progress_never_advances_witness :
  let created := (convert_url (Some (Some two_urls)) task_1 ∅).1.2 in
  let results :=
    OSSClient.convert_urls_streaming (worker demo_client) reversed two_urls in
  get_progress task_1 (run_conversion task_1 two_urls results created).1
  = get_progress task_1 created.
Proof.
  apply (progress_never_advances two_urls task_1 ∅).
  - vm_compute. discriminate.
  - apply lookup_empty.
  - vm_compute. discriminate.
Defined.
End StoreMore.

(** ** Sessions, the login guard and the direct upload *)

Section Web.

(** X17. After a request to [/login] the session is logged in exactly when
    it was logged in before or the request is a POST whose password field
    (empty when missing) equals [AUTH_PASSWORD]; a request that does not log
    in leaves the session as it was. *)
Theorem login_needs_the_password
    (AUTH_PASSWORD : str) (req : request) (s : option bool) :
  (logged_in (login AUTH_PASSWORD req s).2 = true
   ↔ logged_in s = true
     ∨ (method req = POST
        ∧ default [] (form_password req) = AUTH_PASSWORD))
  ∧ (logged_in (login AUTH_PASSWORD req s).2 = false →
     (login AUTH_PASSWORD req s).2 = s).
Proof.
  unfold login. destruct (logged_in s) eqn:Hs; simpl.
  - split; [by rewrite Hs; split; [left|] | done].
  - destruct (method req) eqn:Hm; simpl.
    + rewrite Hs. split; [|done]. split; [done|]. by intros [? | [? _]].
    + case_decide as Hp; simpl.
      * split; [|done]. split; [by right | done].
      * rewrite Hs. split; [|done]. split; [done|]. by intros [? | [_ ?]].
Qed.

Lemma login_needs_the_password_witness :
  logged_in
    (login (lit "admin123")
       {| method := POST; form_password := Some (lit "admin123");
          is_json := false; x_requested_with := None |} None).2 = true.
Proof.
  apply (login_needs_the_password (lit "admin123")
           {| method := POST; form_password := Some (lit "admin123");
              is_json := false; x_requested_with := None |} None).
  right. split; reflexivity.
Defined.

(** X18. [login_required] lets a request through to the handler exactly
    when the session is logged in. Otherwise it answers with the JSON error
    401 to a JSON or XMLHttpRequest request and with a redirect to the login
    page to any other. After [logout], whatever the session was, every
    guarded request is refused; after a login with the password it is let
    through. *)
Theorem login_required_guards
    {A : Type} (f : A) (AUTH_PASSWORD : str) (req : request)
    (s : option bool) :
  (login_required f req s = inr f ↔ logged_in s = true)
  ∧ (logged_in s = false →
     login_required f req s
     = inl (if is_json req
               || bool_decide (x_requested_with req
                               = Some (lit "XMLHttpRequest"))
            then Json401 (lit "请先登录") else Redirect (lit "login")))
  ∧ (∃ p, login_required f req (logout s).2 = inl p)
  ∧ (∀ req0, method req0 = POST → form_password req0 = Some AUTH_PASSWORD →
       login_required f req (login AUTH_PASSWORD req0 s).2 = inr f).
Proof.
  split_and!.
  - unfold login_required. destruct (logged_in s); simpl; [done|].
    case_match; split; done.
  - intros Hs. unfold login_required. rewrite Hs. simpl. by case_match.
  - unfold login_required, logout. simpl. case_match; eauto.
  - intros req0 Hm Hp. unfold login.
    destruct (logged_in s) eqn:Hs; simpl.
    + unfold login_required. by rewrite Hs.
    + rewrite Hm, Hp. simpl. by rewrite decide_True by done.
Qed.

Lemma login_required_guards_witness :
  login_required (convert_url (Some (Some two_urls)) task_1 ∅)
    {| method := POST; form_password := None; is_json := true;
       x_requested_with := None |} None
  = inl (Json401 (lit "请先登录")).
Proof.
  apply (login_required_guards (convert_url (Some (Some two_urls)) task_1 ∅)
           (lit "admin123")
           {| method := POST; form_password := None; is_json := true;
              x_requested_with := None |} None).
  reflexivity.
Defined.

(** X19. The direct upload answers 400 without any call to the storage when
    no file is sent or its name is empty. Otherwise it uploads under a name
    that is never empty, the secured name unless that is empty and the
    original name then, and a success carries that name, the object key
    derived from it and the URL presigned for this key; a failure of the
    uploader becomes the error 500 with its message. *)
Theorem upload_route_outcomes
    (secure_filename : str → str) self (file : option (str * str)) w :
  ((file = None ∨ ∃ stream, file = Some ([], stream)) →
   upload_file secure_filename self file w
   = (Upload400 (lit "没有选择文件"), w))
  ∧ ∀ name stream, file = Some (name, stream) → name ≠ [] →
      let filename :=
        if decide (secure_filename name = []) then name
        else secure_filename name in
      filename ≠ []
      ∧ upload_file secure_filename self file w
        = (match (OSSClient.upload_from_stream self stream filename w).1 with
           | OSSClient.Uploaded url key => Upload200 url filename key
           | OSSClient.Failure err _ => Upload500 err
           end,
           (OSSClient.upload_from_stream self stream filename w).2)
      ∧ ∀ url key,
          (OSSClient.upload_from_stream self stream filename w).1
          = OSSClient.Uploaded url key →
          key = OSSClient.unique_key filename
                  (take 8 (uuid4_hex self (uuids_drawn w)))
          ∧ generate_presigned_url self (bucket_name self) key
              (url_expires self) = Return url.
Proof.
  split.
  - intros [-> | [stream ->]]; reflexivity.
  - intros name stream -> Hname filename.
    assert (filename ≠ []) as Hne.
    { subst filename. by case_decide. }
    split; [done|]. split.
    + unfold upload_file. destruct name as [|c name]; [done|].
      subst filename.
      destruct (secure_filename (c :: name)) as [|c' safe]; simpl;
        unfold mbind, M_bind, mret, M_ret;
        by destruct (OSSClient.upload_from_stream self stream _ w) as [[]?].
    + intros url key Hup.
      destruct (OSSClient.upload_from_stream self stream filename w)
        as [res w'] eqn:Hs. simpl in Hup. subst res.
      by apply upload_from_stream_key in Hs.
Qed.

Lemma upload_route_outcomes_witness :
  upload_file (λ name, name) demo_client (Some ([], [])) start
  = (Upload400 (lit "没有选择文件"), start).
Proof.
  apply (upload_route_outcomes (λ name, name) demo_client (Some ([], []))
           start).
  right. by exists [].
Defined.
End Web.
